(** * ProFlex Draw: topology editor and flow-validation engine

    A shallow embedding of the gas-piping designer.  The repository holds
    several builds of the same application:

    - [App]            src/App.tsx (pressure drop fixed at 0.5),
    - [Part002]        src/unnamed/part_002 (an App component whose
                       pressure drop is project state),
    - [Canvas]         src/unnamed/part_001 (the Canvas component),
    - [GeminiService]  src/services/geminiService.ts,
    - [Part000]        src/unnamed/part_000 (another geminiService),
    - [Index]          src/index.tsx (a single-file build).

    JavaScript numbers are idealised: demands and flows are integers
    ([Z]; every editing path stores [parseInt] results or integer
    defaults), lengths, coordinates and the sizing constants are reals
    ([R]).  [Math.pow] is [Rpower] (they agree on a positive base) and
    [Math.floor] is [Zfloor]; IEEE rounding is outside the model, and so
    is a base [<= 0], which no property below relies on.  A capacity is
    a whole number or [NaN].  A table of pipe specifications is an
    object literal: reading a key it does not own falls through to
    [Object.prototype]. *)

From Stdlib Require Import Reals Lra ZArith.
From stdpp Require Import gmap strings list.

Open Scope Z_scope.

(** ** types.ts (as inlined at the top of src/index.tsx) *)

Inductive NodeType : Type := METER | JUNCTION | MANIFOLD | APPLIANCE.

Global Instance NodeType_eq_dec : EqDecision NodeType.
Proof. solve_decision. Defined.

Inductive PipeSize : Type :=
  | THREE_EIGHTHS | HALF | THREE_QUARTERS | ONE | ONE_AND_QUARTER.

(** The inch mark that ends every size label. *)
Definition inch : string := String (Ascii.ascii_of_nat 34) EmptyString.

(** The run-time value of each enum member; an edge stores this string. *)
Definition PipeSize_value (s : PipeSize) : string :=
  match s with
  | THREE_EIGHTHS => "3/8" +:+ inch
  | HALF => "1/2" +:+ inch
  | THREE_QUARTERS => "3/4" +:+ inch
  | ONE => "1" +:+ inch
  | ONE_AND_QUARTER => "1-1/4" +:+ inch
  end.

Record AppNode : Type := mkNode {
  node_id : string;
  node_type : NodeType;
  node_x : R;
  node_y : R;
  node_name : string;
  node_btu : Z
}.

Record AppEdge : Type := mkEdge {
  edge_id : string;
  edge_from : string;
  edge_to : string;
  edge_size : string;
  edge_length : R
}.

(** ** constants.ts

    [App] and [Part002] import [PIPE_SPECS] from a module that is not
    among the sources, so their capacity model takes the table as a
    parameter: the rows that the object owns, the object being taken to
    be an object literal like the one src/index.tsx declares inline,
    [Index.PIPE_SPECS]. *)

Record PipeSpec : Type := mkSpec {
  spec_size : string;
  spec_coeff : R;
  spec_exp : R;
  spec_capacity : Z
}.

(** A table is usable by the sizing formula when its constants are
    positive. *)
Definition positive_specs (T : gmap string PipeSpec) : Prop :=
  ∀ size spec, T !! size = Some spec →
    (0 < spec_coeff spec)%R ∧ (0 < spec_exp spec)%R.

(** Every member of the enum has a row. *)
Definition complete_specs (T : gmap string PipeSpec) : Prop :=
  ∀ s : PipeSize, is_Some (T !! PipeSize_value s).

(** ** JavaScript values

    What [calculateCapacity] returns: a whole number or [NaN]. *)
Inductive number : Type :=
  | Num (z : Z)
  | NaN.
Coercion Num : Z >-> number.

(** [flow <= capacity]: a comparison with [NaN] is false. *)
Definition le_number (flow : Z) (capacity : number) : bool :=
  match capacity with
  | Num c => bool_decide (flow ≤ c)
  | NaN => false
  end.

(** Both are whole numbers, in this order. *)
Definition number_le (a b : number) : Prop :=
  match a, b with
  | Num x, Num y => x ≤ y
  | _, _ => False
  end.

(** The property names that every object literal inherits from
    [Object.prototype]; their values are functions, or the prototype
    itself for [__proto__], all truthy and none with a property [coeff],
    [exp] or [capacity]. *)
Definition Object_prototype : list string :=
  ["constructor"; "__defineGetter__"; "__defineSetter__"; "hasOwnProperty";
   "__lookupGetter__"; "__lookupSetter__"; "isPrototypeOf";
   "propertyIsEnumerable"; "toString"; "valueOf"; "__proto__"; "toLocaleString"].

(** What [PIPE_SPECS[key]] evaluates to. *)
Inductive Property : Type :=
  | Own (spec : PipeSpec)
  | Inherited
  | Undefined.

(** [PIPE_SPECS[key]] on an object literal whose own properties are the
    rows of [T]. *)
Definition property_of (T : gmap string PipeSpec) (key : string) : Property :=
  match T !! key with
  | Some spec => Own spec
  | None => if bool_decide (key ∈ Object_prototype) then Inherited else Undefined
  end.

(** [Math.pow] on a positive base, which is where the properties below
    use it; on a base [<= 0] [Math.pow] gives 0 or [NaN] and [Rpower]
    gives 1. *)
Definition Math_pow (x y : R) : R := Rpower x y.
Definition Math_floor (x : R) : Z := Zfloor x.

(** The closed form of the specification, for a row of the table. *)
Definition sizing_formula (designPressureDrop : R) (spec : PipeSpec) (length : R) : Z :=
  Zfloor (Rpower ((designPressureDrop / length) / spec_coeff spec)
                 (1 / spec_exp spec)) * 1000.

(** ** Demand Aggregator

    [getFlow] is the local function of [validateSystem]; src/App.tsx
    (lines 61-70) and part_002 (lines 90-99) hold the same text.  The
    recursion has no bound of its own, so the embedding carries fuel:
    [None] means that the call has not returned within [fuel] nested
    calls. *)

Section DemandAggregator.
Variable nodes : list AppNode.
Variable edges : list AppEdge.

(** [edges.find(e => e.id === edgeId)] *)
Definition find_edge (edgeId : string) : option AppEdge :=
  List.find (λ e, bool_decide (edge_id e = edgeId)) edges.

(** [nodes.find(n => n.id === id)] *)
Definition find_node (id : string) : option AppNode :=
  List.find (λ n, bool_decide (node_id n = id)) nodes.

(** [edges.filter(e => e.from === id)] *)
Definition outgoing (id : string) : list AppEdge :=
  filter (λ e, edge_from e = id) edges.

Fixpoint getFlow (fuel : nat) (edgeId : string) : option Z :=
  match fuel with
  | O => None
  | S fuel =>
    match find_edge edgeId with
    | None => Some 0
    | Some edge =>
      match find_node (edge_to edge) with
      | None => Some 0
      | Some targetNode =>
        let flow := 0 in
        let flow :=
          if decide (node_type targetNode = APPLIANCE)
          then flow + node_btu targetNode else flow in
        foldl (λ acc out,
                 flow ← acc; sub ← getFlow fuel (edge_id out); Some (flow + sub))
              (Some flow) (outgoing (node_id targetNode))
      end
    end
  end.

(** The call [getFlow(edgeId)] returns [v]. *)
Definition getFlow_returns (edgeId : string) (v : Z) : Prop :=
  ∃ fuel, getFlow fuel edgeId = Some v.
End DemandAggregator.

(** ** Graph Store invariants of the data model *)

Definition unique_edge_ids (edges : list AppEdge) : Prop :=
  NoDup (edge_id <$> edges).

(** One pipe leads from [a] to [b]. *)
Definition pipe_step (edges : list AppEdge) (a b : string) : Prop :=
  ∃ e, e ∈ edges ∧ edge_from e = a ∧ edge_to e = b.

(** No node is reachable from itself along [from → to]. *)
Definition acyclic (edges : list AppEdge) : Prop :=
  ∀ a, ¬ tc (pipe_step edges) a a.

(** Nesting depth that suffices on an acyclic graph. *)
Definition enough_fuel (edges : list AppEdge) : nat := S (length edges).

(** ** Validator *)

Record Verdict : Type := mkVerdict {
  isValid : bool;
  flow : Z;
  capacity : number
}.

(** [validateSystem], with the capacity model it closes over as an
    argument (src/App.tsx lines 59-77, part_002 lines 88-107). *)
Definition validateSystem (calculateCapacity : string → R → number)
    (nodes : list AppNode) (edges : list AppEdge) (fuel : nat)
    : option (gmap string Verdict) :=
  foldl (λ acc edge,
           results ← acc;
           flow ← getFlow nodes edges fuel (edge_id edge);
           let capacity := calculateCapacity (edge_size edge) (edge_length edge) in
           Some (<[edge_id edge := mkVerdict (le_number flow capacity) flow capacity]> results))
        (Some ∅) edges.

(** ** Strings, as the report renderer handles them *)

Definition nl : string := String (Ascii.ascii_of_nat 10) EmptyString.

(** ["a\nb\nc"] written as a list of lines. *)
Definition text (lines : list string) : string := String.concat nl lines.

(** The white space of the ASCII range, the characters the strings of
    this model are made of; [trim] also strips the Unicode spaces
    beyond it. *)
Definition is_space (c : Ascii.ascii) : bool :=
  let n := Ascii.nat_of_ascii c in
  bool_decide (n = 32 ∨ (9 ≤ n ≤ 13))%nat.

(** [!s.trim()] *)
Fixpoint is_blank (s : string) : bool :=
  match s with
  | EmptyString => true
  | String c s => is_space c && is_blank s
  end.

Fixpoint trim_start (s : string) : string :=
  match s with
  | EmptyString => EmptyString
  | String c s' => if is_space c then trim_start s' else s
  end.

Fixpoint trim_end (s : string) : string :=
  match s with
  | EmptyString => EmptyString
  | String c s' => if is_blank s then EmptyString else String c (trim_end s')
  end.

Definition trim (s : string) : string := trim_end (trim_start s).

(** [s.split(c)] for a one-character separator. *)
Fixpoint split_on (sep : Ascii.ascii) (s : string) : list string :=
  match s with
  | EmptyString => [EmptyString]
  | String c s' =>
    if bool_decide (c = sep) then EmptyString :: split_on sep s'
    else match split_on sep s' with
         | piece :: pieces => String c piece :: pieces
         | [] => [String c EmptyString]
         end
  end.

(** [s.split(/(?=t1|t2|...)/)]: cut in front of every later position at
    which one of the titles starts. *)
Fixpoint split_before (titles : list string) (s : string) : list string :=
  match s with
  | EmptyString => [EmptyString]
  | String c s' =>
    if existsb (λ t, String.prefix t s') titles
    then String c EmptyString :: split_before titles s'
    else match split_before titles s' with
         | piece :: pieces => String c piece :: pieces
         | [] => [String c EmptyString]
         end
  end.

Definition section_titles : list string :=
  ["Safety & Compliance Audit"; "Performance & Optimization"].

(** The sections the report modal shows (src/App.tsx line 218,
    src/index.tsx line 346). *)
Definition report_sections (aiReport : string) : list string :=
  List.filter (λ s, negb (is_blank s)) (split_before section_titles aiReport).

(** [lines[0]] of a section. *)
Definition section_title (section : string) : string :=
  hd EmptyString (split_on (Ascii.ascii_of_nat 10) (trim section)).

(** [lines.slice(1).filter(l => l.trim()).slice(0, 5)] *)
Definition section_bullets (section : string) : list string :=
  take 5 (List.filter (λ l, negb (is_blank l))
            (tail (split_on (Ascii.ascii_of_nat 10) (trim section)))).

(** ** The audit service

    The outcome of the awaited [ai.models.generateContent] call is an
    input of the model: it fulfils with [response.text] (which may be
    undefined) or rejects.  The client constructor, which runs before
    the [try] block, is taken to succeed. *)

Inductive Settled (A : Type) : Type :=
  | Fulfilled (value : A)
  | Rejected.
Arguments Fulfilled {A} value.
Arguments Rejected {A}.

Module GeminiService.
Definition fallback : string :=
  "Failed to perform AI audit. Please check your connections and try again.".

Definition auditSystem (generateContent : Settled (option string))
    : Settled (option string) :=
  match generateContent with
  | Fulfilled response_text => Fulfilled response_text
  | Rejected => Fulfilled (Some fallback)
  end.
End GeminiService.

Module Part000.
Definition fallback : string :=
  text ["Safety & Compliance Audit";
        "- Audit engine connection lost.";
        "- Verify internet access.";
        "- Ensure API key is valid.";
        "- Check project node structure.";
        "- Retry audit in a moment.";
        "";
        "Performance & Optimization";
        "- No metrics available currently.";
        "- System data could not be parsed.";
        "- Check for floating components.";
        "- Ensure meter is connected.";
        "- Refresh design and retry."].

Definition auditSystem (generateContent : Settled (option string))
    : Settled (option string) :=
  match generateContent with
  | Fulfilled response_text => Fulfilled response_text
  | Rejected => Fulfilled (Some fallback)
  end.
End Part000.

(** ** Interaction State Machine (the Canvas component, part_001)

    A handler reads the props and state of the current render and returns
    the next component state together with the callbacks it invoked on
    its parent, in order. *)

Global Instance Rgt_decision (x y : R) : Decision (x > y)%R := Rgt_dec x y.

Inductive Tool : Type := pipe | select.

Global Instance Tool_eq_dec : EqDecision Tool.
Proof. solve_decision. Defined.

Record Point : Type := mkPoint { px : R; py : R }.

(** Truthiness of a [string | null] value. *)
Definition truthy (v : option string) : bool :=
  match v with
  | Some s => bool_decide (s ≠ EmptyString)
  | None => false
  end.

Module Canvas.
Record Props : Type := mkProps {
  nodes : list AppNode;
  selectedTool : Tool;
  selectedId : option string;
  isMobile : bool
}.

Record InteractionState : Type := mkInteraction {
  lastId : string;
  lastTime : Z;
  tapCount : Z
}.

Record State : Type := mkState {
  draggingNode : option string;
  pipingFrom : option string;
  mousePos : Point;
  dragStartPos : Point;
  hasMovedSignificant : bool;
  tapPipingSource : option string;
  interactionState : InteractionState
}.

(** Calls made on the props [onUpdateNodes], [onAddEdge], [onSelect],
    [onEdit] and [onDeleteNode]. *)
Inductive Intent : Type :=
  | UpdateNodes (updatedNodes : list AppNode)
  | AddEdge (from to : string)
  | Select (id : option string)
  | Edit (id : string)
  | DeleteNode (id : string).

Definition initial : State :=
  mkState None None (mkPoint 0 0) (mkPoint 0 0) false None (mkInteraction "" 0 0).

Definition setTapPipingSource (v : option string) (st : State) : State :=
  mkState (draggingNode st) (pipingFrom st) (mousePos st) (dragStartPos st)
          (hasMovedSignificant st) v (interactionState st).

(** [setDraggingNode(null); setPipingFrom(null)] *)
Definition releasePointer (st : State) : State :=
  mkState None None (mousePos st) (dragStartPos st)
          (hasMovedSignificant st) (tapPipingSource st) (interactionState st).

(** The effect on [selectedTool]. *)
Definition toolEffect (props : Props) (st : State) : State :=
  if bool_decide (selectedTool props = select)
  then setTapPipingSource None st else st.

Definition handleInteractionStart (props : Props) (st : State)
    (coords : Point) (id : string) (isNode : bool) : State * list Intent :=
  let dragging :=
    if bool_decide (selectedTool props = select) && isNode
    then Some id else draggingNode st in
  let piping :=
    if negb (bool_decide (selectedTool props = select))
       && bool_decide (selectedTool props = pipe) && isNode
    then Some id else pipingFrom st in
  (mkState dragging piping (mousePos st) coords false
           (tapPipingSource st) (interactionState st), []).

Definition handleInteractionMove (props : Props) (st : State)
    (coords : Point) : State * list Intent :=
  let threshold : R := if isMobile props then 30%R else 8%R in
  let moved :=
    if bool_decide (Rabs (px coords - px (dragStartPos st)) > threshold)%R
       || bool_decide (Rabs (py coords - py (dragStartPos st)) > threshold)%R
    then true else hasMovedSignificant st in
  let st' := mkState (draggingNode st) (pipingFrom st) coords (dragStartPos st)
                     moved (tapPipingSource st) (interactionState st) in
  if truthy (draggingNode st)
  then
    let updatedNodes :=
      (λ n, if bool_decide (Some (node_id n) = draggingNode st)
            then mkNode (node_id n) (node_type n) (px coords) (py coords)
                        (node_name n) (node_btu n)
            else n) <$> nodes props in
    (st', [UpdateNodes updatedNodes])
  else (st', []).

(** [nodeUnderFinger] is the [data-node-id] attribute of the closest
    node group of [document.elementFromPoint] at the release point,
    when there is one; [now] is [Date.now()]. *)
Definition handleInteractionEnd (props : Props) (st : State)
    (now : Z) (nodeUnderFinger : option string)
    (id : string) (isNode : bool) : State * list Intent :=
  let state := interactionState st in
  match selectedTool props with
  | pipe =>
    let targetId :=
      if isMobile props && hasMovedSignificant st
      then match nodeUnderFinger with
           | Some attr => if bool_decide (attr ≠ EmptyString) then attr else id
           | None => id
           end
      else id in
    let isTargetNode :=
      existsb (λ n, bool_decide (node_id n = targetId)) (nodes props) in
    let '(st', calls) :=
      if isTargetNode then
        if negb (truthy (tapPipingSource st)) then
          (setTapPipingSource (Some targetId) st, [Select None])
        else if bool_decide (tapPipingSource st = Some targetId)
                && negb (hasMovedSignificant st) then
          (setTapPipingSource None st, [])
        else if bool_decide (tapPipingSource st ≠ Some targetId) then
          (setTapPipingSource None st,
           [AddEdge (default EmptyString (tapPipingSource st)) targetId])
        else (st, [])
      else (st, []) in
    (releasePointer st', calls)
  | select =>
    if negb (hasMovedSignificant st) then
      let count :=
        if bool_decide (id = lastId state) && bool_decide (now - lastTime state < 500)
        then tapCount state + 1 else 1 in
      let '(count', calls) :=
        if bool_decide (2 ≤ count) then (0, [Edit id]) else (count, [Select (Some id)]) in
      (releasePointer
         (mkState (draggingNode st) (pipingFrom st) (mousePos st) (dragStartPos st)
                  (hasMovedSignificant st) (tapPipingSource st)
                  (mkInteraction id now count')), calls)
    else (releasePointer st, [])
  end.

(** [onMouseDown] / [onTouchStart] of the background grid. *)
Definition backgroundDown (props : Props) (st : State) : State * list Intent :=
  (setTapPipingSource None st,
   if bool_decide (selectedTool props = select) then [Select None] else []).

(** [onMouseUp] / [onTouchEnd] of the enclosing container. *)
Definition containerUp (st : State) : State * list Intent :=
  (releasePointer st, []).

(** [onClick] of the delete indicator of a node. *)
Definition deleteClick (st : State) (id : string) : State * list Intent :=
  (st, [DeleteNode id]).
End Canvas.

(** ** The application shell, src/App.tsx *)

Module App.
Section Capacity.
Variable PIPE_SPECS : gmap string PipeSpec.

(** [spec] is falsy only when the key is no property at all.  An
    inherited property has neither [coeff] nor [exp]: the arithmetic on
    [undefined] gives [NaN]. *)
Definition calculateCapacity (size : string) (length : R) : number :=
  match property_of PIPE_SPECS size with
  | Undefined => 0
  | Inherited => if Rle_dec length 0 then 0 else NaN
  | Own spec =>
    if Rle_dec length 0 then 0
    else
      let pressureDrop := 0.5%R in
      let cfh := Math_pow ((pressureDrop / length) / spec_coeff spec)
                          (1 / spec_exp spec) in
      Math_floor cfh * 1000
  end.
End Capacity.

Record State : Type := mkState {
  nodes : list AppNode;
  edges : list AppEdge;
  selectedTool : Tool;
  selectedPipeSize : string;
  selectedId : option string;
  isMobile : bool;
  showMobileEdit : bool
}.

Definition setNodes (ns : list AppNode) (st : State) : State :=
  mkState ns (edges st) (selectedTool st) (selectedPipeSize st)
          (selectedId st) (isMobile st) (showMobileEdit st).

Definition setEdges (es : list AppEdge) (st : State) : State :=
  mkState (nodes st) es (selectedTool st) (selectedPipeSize st)
          (selectedId st) (isMobile st) (showMobileEdit st).

Definition setSelectedId (id : option string) (st : State) : State :=
  mkState (nodes st) (edges st) (selectedTool st) (selectedPipeSize st)
          id (isMobile st) (showMobileEdit st).

Definition setSelectedTool (tool : Tool) (st : State) : State :=
  mkState (nodes st) (edges st) tool (selectedPipeSize st)
          (selectedId st) (isMobile st) (showMobileEdit st).

Definition setShowMobileEdit (b : bool) (st : State) : State :=
  mkState (nodes st) (edges st) (selectedTool st) (selectedPipeSize st)
          (selectedId st) (isMobile st) b.

(** [rand] is the value of [Math.random().toString(36).substr(2, 9)]. *)
Definition onAddEdge (rand : string) (f t : string) (st : State) : State :=
  setEdges (edges st ++ [mkEdge rand f t (selectedPipeSize st) 10]) st.

Definition onDeleteEdge (id : string) (st : State) : State :=
  setEdges (filter (λ e, edge_id e ≠ id) (edges st)) st.

Definition onDeleteNode (id : string) (st : State) : State :=
  setEdges (filter (λ e, edge_from e ≠ id ∧ edge_to e ≠ id) (edges st))
           (setNodes (filter (λ n, node_id n ≠ id) (nodes st)) st).

Definition onEdit (id : string) (st : State) : State :=
  let st := setSelectedId (Some id) st in
  if isMobile st then setShowMobileEdit true st else st.

(** The props handed to [<Canvas ... />]. *)
Definition props (st : State) : Canvas.Props :=
  Canvas.mkProps (nodes st) (selectedTool st) (selectedId st) (isMobile st).

Definition call (rand : string) (st : State) (c : Canvas.Intent) : State :=
  match c with
  | Canvas.UpdateNodes ns => setNodes ns st
  | Canvas.AddEdge f t => onAddEdge rand f t st
  | Canvas.Select id => setSelectedId id st
  | Canvas.Edit id => onEdit id st
  | Canvas.DeleteNode id => onDeleteNode id st
  end.

(** The fallback of the [catch] in [handleRunAudit]. *)
Definition fallback : string :=
  text ["Safety & Compliance Audit";
        "- Connection error.";
        "- Verify API key.";
        "- Check network.";
        "- Ensure valid nodes.";
        "- Please try again.";
        "";
        "Performance & Optimization";
        "- Insufficient data.";
        "- Calculation interrupted.";
        "- Try smaller segments.";
        "- Link all appliances.";
        "- Refresh and retry."].

(** [handleRunAudit]: the next value of [aiReport], given how the
    awaited [auditSystem(nodes, edges)] settled. *)
Definition handleRunAudit (isAuditing : bool) (aiReport : option string)
    (audit : Settled (option string)) : option string :=
  if isAuditing then aiReport
  else match audit with
       | Fulfilled report => report
       | Rejected => Some fallback
       end.

(** The audit operation of this build: [handleRunAudit] over
    src/services/geminiService.ts. *)
Definition runAudit (generateContent : Settled (option string)) : option string :=
  handleRunAudit false None (GeminiService.auditSystem generateContent).

(** *** Canvas and shell together *)

Record World : Type := mkWorld { app : State; canvas : Canvas.State }.

Inductive Event : Type :=
  | InteractionStart (coords : Point) (id : string) (isNode : bool)
  | InteractionMove (coords : Point)
  | InteractionEnd (now : Z) (nodeUnderFinger : option string) (rand : string)
                   (id : string) (isNode : bool)
  | BackgroundDown
  | ContainerUp
  | DeleteClick (id : string)
  | ToolSelected (tool : Tool).

Definition deliver (rand : string) (w : World)
    (r : Canvas.State * list Canvas.Intent) : World :=
  mkWorld (foldl (call rand) (app w) r.2) r.1.

Definition step (w : World) (ev : Event) : World :=
  let p := props (app w) in
  match ev with
  | InteractionStart coords id isNode =>
      deliver "" w (Canvas.handleInteractionStart p (canvas w) coords id isNode)
  | InteractionMove coords =>
      deliver "" w (Canvas.handleInteractionMove p (canvas w) coords)
  | InteractionEnd now under rand id isNode =>
      deliver rand w (Canvas.handleInteractionEnd p (canvas w) now under id isNode)
  | BackgroundDown => deliver "" w (Canvas.backgroundDown p (canvas w))
  | ContainerUp => deliver "" w (Canvas.containerUp (canvas w))
  | DeleteClick id => deliver "" w (Canvas.deleteClick (canvas w) id)
  | ToolSelected tool =>
      let a := setSelectedTool tool (app w) in
      mkWorld a (Canvas.toolEffect (props a) (canvas w))
  end.

Definition run (w : World) (evs : list Event) : World := foldl step w evs.

(** A tap on a node: press and release with no movement in between. *)
Definition tapNode (coords : Point) (now : Z) (rand : string) (id : string)
    : list Event :=
  [InteractionStart coords id true; InteractionEnd now None rand id true].

(** A tap on the empty background. *)
Definition tapBackground : list Event := [BackgroundDown; ContainerUp].
End App.

(** ** The application shell, part_002 *)

Module Part002.
Section Capacity.
Variable PIPE_SPECS : gmap string PipeSpec.
(** The project state [pressureDrop], initially 0.5. *)
Variable pressureDrop : R.

(** As in src/App.tsx, with the pressure drop of the project. *)
Definition calculateCapacity (size : string) (length : R) : number :=
  match property_of PIPE_SPECS size with
  | Undefined => 0
  | Inherited => if Rle_dec length 0 then 0 else NaN
  | Own spec =>
    if Rle_dec length 0 then 0
    else
      let cfh := Math_pow ((pressureDrop / length) / spec_coeff spec)
                          (1 / spec_exp spec) in
      Math_floor cfh * 1000
  end.
End Capacity.

Definition handleDeleteNode (id : string) (st : App.State) : App.State :=
  App.setShowMobileEdit false
    (App.setSelectedId None
       (App.setEdges
          (filter (λ e, edge_from e ≠ id ∧ edge_to e ≠ id) (App.edges st))
          (App.setNodes (filter (λ n, node_id n ≠ id) (App.nodes st)) st))).

Definition handleRunAudit (isAuditing : bool) (aiReport : option string)
    (audit : Settled (option string)) : option string :=
  if isAuditing then aiReport
  else match audit with
       | Fulfilled report =>
           if truthy report then report else Some "No audit report generated."
       | Rejected => Some "Failed to generate AI audit report."
       end.

Definition runAudit (generateContent : Settled (option string)) : option string :=
  handleRunAudit false None (Part000.auditSystem generateContent).
End Part002.

Module Index.
Definition PIPE_SPECS : gmap string PipeSpec :=
  list_to_map [
    (PipeSize_value THREE_EIGHTHS,
     mkSpec (PipeSize_value THREE_EIGHTHS) 0.00002158927 2.02558185 46000);
    (PipeSize_value HALF,
     mkSpec (PipeSize_value HALF) 0.00000410606 2.1590935 77000);
    (PipeSize_value THREE_QUARTERS,
     mkSpec (PipeSize_value THREE_QUARTERS) 0.00000123682 2.00156167 200000);
    (PipeSize_value ONE,
     mkSpec (PipeSize_value ONE) 0.0000010746 1.77654817 423000);
    (PipeSize_value ONE_AND_QUARTER,
     mkSpec (PipeSize_value ONE_AND_QUARTER) 1.1678553403503E-07 1.992081557687 662000)
  ].


(** [target.btu || 0], whatever the type of the node. *)
Fixpoint getFlow (nodes : list AppNode) (edges : list AppEdge)
    (fuel : nat) (edgeId : string) : option Z :=
  match fuel with
  | O => None
  | S fuel =>
    match find_edge edges edgeId with
    | None => Some 0
    | Some edge =>
      match find_node nodes (edge_to edge) with
      | None => Some 0
      | Some target =>
        let flow := node_btu target in
        foldl (λ acc e,
                 flow ← acc; sub ← getFlow nodes edges fuel (edge_id e);
                 Some (flow + sub))
              (Some flow) (outgoing edges (node_id target))
      end
    end
  end.

(** The call [getFlow(edgeId)] returns [v]. *)
Definition getFlow_returns (nodes : list AppNode) (edges : list AppEdge)
    (edgeId : string) (v : Z) : Prop :=
  ∃ fuel, getFlow nodes edges fuel edgeId = Some v.

Record Verdict : Type := mkVerdict { isValid : bool; flow : Z }.

(** How a run of [validate] ends: with the mapping, with the TypeError
    of [PIPE_SPECS[e.size].capacity] on a size that is no property of
    the table at all, or not within the fuel.  On an inherited property
    [.capacity] is [undefined] and [flow <= undefined] is false. *)
Inductive Completion : Type :=
  | Returns (results : gmap string Verdict)
  | Throws
  | OutOfFuel.

Definition validate (nodes : list AppNode) (edges : list AppEdge)
    (fuel : nat) : Completion :=
  foldl (λ acc e,
           match acc with
           | Returns results =>
             match getFlow nodes edges fuel (edge_id e) with
             | None => OutOfFuel
             | Some flow =>
               match property_of PIPE_SPECS (edge_size e) with
               | Undefined => Throws
               | Inherited =>
                 Returns (<[edge_id e := mkVerdict false flow]> results)
               | Own spec =>
                 let cap := spec_capacity spec in
                 Returns (<[edge_id e := mkVerdict (bool_decide (flow ≤ cap)) flow]> results)
               end
             end
           | _ => acc
           end)
        (Returns ∅) edges.

Definition auditSystem (generateContent : Settled (option string))
    : Settled (option string) :=
  match generateContent with
  | Fulfilled response_text => Fulfilled response_text
  | Rejected => Fulfilled (Some App.fallback)
  end.
End Index.

(** ** Notions used to state the properties *)

Definition total (flows : list Z) : Z := foldr Z.add 0 flows.

(** The loop of [getFlow] over the outgoing pipes, for any way [sub] of
    obtaining the flow of one pipe. *)
Definition add_flows (sub : string → option Z) (init : Z)
    (outs : list AppEdge) : option Z :=
  foldl (λ acc out, flow ← acc; s ← sub (edge_id out); Some (flow + s))
        (Some init) outs.

(** A chain of pipes, each starting where the previous one ends: the
    pipes met along one branch of the recursion of [getFlow]. *)
Inductive chain (edges : list AppEdge) : list AppEdge → Prop :=
  | chain_one e : e ∈ edges → chain edges [e]
  | chain_cons e e' l :
      e ∈ edges → edge_to e = edge_from e' →
      chain edges (e' :: l) → chain edges (e :: e' :: l).

(** What the aggregator of src/App.tsx and part_002 reads off a node. *)
Definition appliance_demand (n : AppNode) : Z :=
  if decide (node_type n = APPLIANCE) then node_btu n else 0.

(** The equation of an aggregator at the edge [e], for the calls
    [returns] of the aggregator and the demand it reads off a node: the
    flow is 0 when [e.to] names no node, and otherwise the demand of
    that node plus the flows of the edges that leave it, defined exactly
    when those are. *)
Definition flow_equation (returns : string → Z → Prop) (demand : AppNode → Z)
    (nodes : list AppNode) (edges : list AppEdge) (e : AppEdge) : Prop :=
  match find_node nodes (edge_to e) with
  | None => ∀ v, returns (edge_id e) v ↔ v = 0
  | Some target =>
    ∀ v, returns (edge_id e) v ↔
      ∃ flows,
        Forall2 (λ E x, returns (edge_id E) x)
                (filter (λ E, edge_from E = node_id target) edges) flows
        ∧ v = demand target + total flows
  end.

(** The entry that [validateSystem] stores for an edge whose flow is [flow]. *)
Definition verdict_for (calculateCapacity : string → R → number)
    (e : AppEdge) (flow : Z) : Verdict :=
  let capacity := calculateCapacity (edge_size e) (edge_length e) in
  mkVerdict (le_number flow capacity) flow capacity.

(** The body of [validateSystem] from a given mapping onwards. *)
Definition validate_from (calculateCapacity : string → R → number)
    (nodes : list AppNode) (edges : list AppEdge) (fuel : nat)
    (acc : option (gmap string Verdict)) (l : list AppEdge)
    : option (gmap string Verdict) :=
  foldl (λ acc edge,
           results ← acc;
           flow ← getFlow nodes edges fuel (edge_id edge);
           let capacity := calculateCapacity (edge_size edge) (edge_length edge) in
           Some (<[edge_id edge := mkVerdict (le_number flow capacity) flow capacity]> results))
        acc l.

(** The contract of the Validator, for a capacity model: on the
    current graph the pass returns a mapping whose entry for every edge
    carries the flow of the Demand Aggregator, the capacity of the model
    at the size and length of the edge, and [isValid = (flow <= capacity)]. *)
Definition verdicts_sound (calculateCapacity : string → R → number)
    (nodes : list AppNode) (edges : list AppEdge) : Prop :=
  ∃ results,
    validateSystem calculateCapacity nodes edges (enough_fuel edges) = Some results
    ∧ ∀ e, e ∈ edges →
        ∃ v, results !! edge_id e = Some v
             ∧ getFlow_returns nodes edges (edge_id e) (flow v)
             ∧ capacity v = calculateCapacity (edge_size e) (edge_length e)
             ∧ isValid v = le_number (flow v) (capacity v)
             ∧ (capacity v = flow v → isValid v = true).

(** ** Sample projects *)

(** A meter feeding a junction that serves a water heater and a cooktop. *)
Definition demo_nodes : list AppNode :=
  [mkNode "m" METER 100 500 "Gas Meter" 0;
   mkNode "j" JUNCTION 300 500 "T-Junction" 0;
   mkNode "w" APPLIANCE 500 300 "Water Heater" 40000;
   mkNode "c" APPLIANCE 500 700 "Cooktop" 65000].

Definition demo_edges : list AppEdge :=
  [mkEdge "e1" "m" "j" (PipeSize_value HALF) 10;
   mkEdge "e2" "j" "w" (PipeSize_value HALF) 10;
   mkEdge "e3" "j" "c" (PipeSize_value HALF) 10].

(** Two pipes that close a loop between two junctions. *)
Definition loop_nodes : list AppNode :=
  [mkNode "a" JUNCTION 100 100 "T-Junction" 0;
   mkNode "b" JUNCTION 200 100 "T-Junction" 0].

Definition loop_edges : list AppEdge :=
  [mkEdge "ab" "a" "b" (PipeSize_value HALF) 10;
   mkEdge "ba" "b" "a" (PipeSize_value HALF) 10].

(** The sample project open in the designer of src/App.tsx. *)
Definition demo_state : App.State :=
  App.mkState demo_nodes demo_edges select (PipeSize_value HALF) (Some "w") false false.

Definition demo_world : App.World :=
  App.mkWorld (App.setSelectedTool pipe demo_state) Canvas.initial.

(** Two pipes in a row that carry the same identifier. *)
Definition shared_id_nodes : list AppNode :=
  [mkNode "x" METER 100 100 "Gas Meter" 0;
   mkNode "y" JUNCTION 200 100 "T-Junction" 0;
   mkNode "z" APPLIANCE 300 100 "Dryer" 20000].

Definition shared_id_edges : list AppEdge :=
  [mkEdge "p" "x" "y" (PipeSize_value HALF) 10;
   mkEdge "p" "y" "z" (PipeSize_value HALF) 10].

(** A junction that carries a demand value, as an imported file may. *)
Definition stray_btu_nodes : list AppNode :=
  [mkNode "m" METER 100 500 "Gas Meter" 0;
   mkNode "j" JUNCTION 300 500 "T-Junction" 5000;
   mkNode "w" APPLIANCE 500 300 "Water Heater" 40000].

Definition stray_btu_edges : list AppEdge :=
  [mkEdge "e1" "m" "j" (PipeSize_value HALF) 10;
   mkEdge "e2" "j" "w" (PipeSize_value HALF) 10].

(** A water heater at the end of 100 feet of half-inch pipe. *)
Definition long_run_nodes : list AppNode :=
  [mkNode "m" METER 100 500 "Gas Meter" 0;
   mkNode "w" APPLIANCE 500 500 "Water Heater" 40000].

Definition long_run_edges : list AppEdge :=
  [mkEdge "e1" "m" "w" (PipeSize_value HALF) 100].

(** The flow of an edge, as a number, on a graph on which the
    aggregation ends. *)
Definition flow_of (nodes : list AppNode) (edges : list AppEdge) (e : AppEdge) : Z :=
  default 0 (getFlow nodes edges (enough_fuel edges) (edge_id e)).

(** ** Notions used by the further properties *)

(** Two nodes that the aggregation cannot tell apart. *)
Definition same_demand (n n' : AppNode) : Prop :=
  node_id n = node_id n' ∧ node_type n = node_type n' ∧ node_btu n = node_btu n'.

(** Two pipes with the same identifier and the same ends. *)
Definition same_ends (e e' : AppEdge) : Prop :=
  edge_id e = edge_id e' ∧ edge_from e = edge_from e' ∧ edge_to e = edge_to e'.

(** Every pipe starts and ends at a node of the project. *)
Definition no_dangling (nodes : list AppNode) (edges : list AppEdge) : Prop :=
  ∀ e, e ∈ edges →
    edge_from e ∈ node_id <$> nodes ∧ edge_to e ∈ node_id <$> nodes.

(** A press and a release on the same element with no pointer movement
    in between, as the Canvas handles them. *)
Definition tap_gesture (props : Canvas.Props) (st : Canvas.State)
    (coords : Point) (now : Z) (id : string) (isNode : bool)
    : Canvas.State * list Canvas.Intent :=
  Canvas.handleInteractionEnd props
    (Canvas.handleInteractionStart props st coords id isNode).1 now None id isNode.

(** The tap counter of a Canvas state. *)
Definition taps_counted (st : Canvas.State) : Z :=
  Canvas.tapCount (Canvas.interactionState st).


(** ** More of the application shell, src/App.tsx

    Project bookkeeping around the designer.  The value kept in
    [localStorage] under [RECENTS_KEY] is modelled by the list it
    serialises; [rand] arguments are draws of
    [Math.random().toString(36).substr(2, 9)] and [now] is [Date.now()].
    A handler reads the state of the render it was created in, and of
    several writes to one state variable the last one stands. *)

Module AppShell.
Record RecentProject : Type := mkRecent {
  recent_id : string;
  recent_name : string;
  recent_timestamp : Z;
  recent_nodes : list AppNode;
  recent_edges : list AppEdge
}.

Inductive View : Type := home | designer.

Record State : Type := mkState {
  view : View;
  currentProjectId : option string;
  projectName : string;
  shell : App.State;
  showAddMenuMobile : bool;
  showSaveAsModal : bool;
  recentProjects : list RecentProject;
  storedRecents : option (list RecentProject)
}.

Definition setShell (a : App.State) (st : State) : State :=
  mkState (view st) (currentProjectId st) (projectName st) a
          (showAddMenuMobile st) (showSaveAsModal st)
          (recentProjects st) (storedRecents st).

Definition handleSave (rand : string) (now : Z) (st : State) : State :=
  let id := if truthy (currentProjectId st)
            then default EmptyString (currentProjectId st) else rand in
  let newProject :=
    mkRecent id (projectName st) now (App.nodes (shell st)) (App.edges (shell st)) in
  let updated :=
    take 15 (newProject :: filter (λ p, recent_id p ≠ id) (recentProjects st)) in
  mkState (view st) (Some id) (projectName st) (shell st)
          (showAddMenuMobile st) (showSaveAsModal st) updated (Some updated).

(** [newId] is drawn first; [handleSave] then runs in the same render,
    so it still reads the old name and identifier, and its own
    [setCurrentProjectId] comes last. *)
Definition handleSaveAs (newId rand : string) (now : Z) (name : string)
    (st : State) : State :=
  if is_blank name then st
  else
    let saved := handleSave rand now st in
    mkState (view st) (currentProjectId saved) name (shell st)
            (showAddMenuMobile st) false
            (recentProjects saved) (storedRecents saved).

Definition default_name (type : NodeType) : string :=
  match type with
  | METER => "Gas Meter"
  | JUNCTION => "T-Junction"
  | MANIFOLD => "Manifold"
  | APPLIANCE => "Appliance"
  end.

Definition handleAddNode (rand : string) (type : NodeType) (btu : option Z)
    (name : option string) (st : State) : State :=
  let newNode :=
    mkNode rand type 500 500
           (if truthy name then default EmptyString name else default_name type)
           (default 0 btu) in
  let a := shell st in
  let a := App.setNodes (App.nodes a ++ [newNode]) a in
  let a := App.setSelectedId (Some rand) a in
  let a := if App.isMobile a then App.setShowMobileEdit true a else a in
  mkState (view st) (currentProjectId st) (projectName st) a
          false (showSaveAsModal st) (recentProjects st) (storedRecents st).

(** The [New Project] button of the home view. *)
Definition newProject (st : State) : State :=
  mkState designer (currentProjectId st) "New Project"
          (App.setEdges [] (App.setNodes [] (shell st)))
          (showAddMenuMobile st) (showSaveAsModal st)
          (recentProjects st) (storedRecents st).

(** The button of a recent project [p] in the home view. *)
Definition openRecent (p : RecentProject) (st : State) : State :=
  mkState designer (Some (recent_id p)) (recent_name p)
          (App.setEdges (recent_edges p) (App.setNodes (recent_nodes p) (shell st)))
          (showAddMenuMobile st) (showSaveAsModal st)
          (recentProjects st) (storedRecents st).

(** What [handleImport] reads of a parsed file: [d.nodes], [d.edges]
    and [d.projectName], each of which may be missing. *)
Record Design : Type := mkDesign {
  design_nodes : option (list AppNode);
  design_edges : option (list AppEdge);
  design_projectName : option string
}.

(** The [onload] callback of [handleImport] (lines 116-121); [parsed] is
    [None] when [JSON.parse] or the reading of [d] throws, which the
    [catch] answers with an alert. *)
Definition handleImport (parsed : option Design) (st : State) : State :=
  match parsed with
  | None => st
  | Some d =>
    mkState designer (currentProjectId st)
            (if truthy (design_projectName d)
             then default EmptyString (design_projectName d) else "Imported Design")
            (App.setEdges (default [] (design_edges d))
               (App.setNodes (default [] (design_nodes d)) (shell st)))
            (showAddMenuMobile st) (showSaveAsModal st)
            (recentProjects st) (storedRecents st)
  end.

(** *** The designer view: Canvas events and the toolbar's add buttons *)

Inductive Event : Type :=
  | CanvasEvent (ev : App.Event)
  | AddNode (rand : string) (type : NodeType) (btu : option Z) (name : option string).

Record World : Type := mkWorld { app : State; canvas : Canvas.State }.

Definition step (w : World) (ev : Event) : World :=
  match ev with
  | CanvasEvent ev =>
      let w' := App.step (App.mkWorld (shell (app w)) (canvas w)) ev in
      mkWorld (setShell (App.app w') (app w)) (App.canvas w')
  | AddNode rand type btu name =>
      mkWorld (handleAddNode rand type btu name (app w)) (canvas w)
  end.

Definition run (w : World) (evs : list Event) : World := foldl step w evs.

(** The delete indicator of a node is rendered only in SELECT mode and
    on the selected node; other events can always occur. *)
Definition enabled (w : World) (ev : Event) : Prop :=
  match ev with
  | CanvasEvent (App.DeleteClick id) =>
      App.selectedTool (shell (app w)) = select
      ∧ App.selectedId (shell (app w)) = Some id
  | _ => True
  end.

(** Every event of the list can occur when its turn comes. *)
Fixpoint feasible (w : World) (evs : list Event) : Prop :=
  match evs with
  | [] => True
  | ev :: evs => enabled w ev ∧ feasible (step w ev) evs
  end.
End AppShell.

(** The state the designer keeps consistent: in SELECT mode no source is
    locked, a locked source is a node of the project, and no pipe
    dangles. *)
Definition designer_consistent (w : AppShell.World) : Prop :=
  let a := AppShell.shell (AppShell.app w) in
  (App.selectedTool a = select → Canvas.tapPipingSource (AppShell.canvas w) = None)
  ∧ (∀ src, Canvas.tapPipingSource (AppShell.canvas w) = Some src →
            src ∈ node_id <$> App.nodes a)
  ∧ no_dangling (App.nodes a) (App.edges a).

(** The sample project in the designer view of the shell. *)
Definition demo_shell : AppShell.World :=
  AppShell.mkWorld
    (AppShell.mkState AppShell.designer None "New Project" demo_state false false [] None)
    Canvas.initial.

(** ** More of the application shell, part_002 *)

Module Part002Shell.
Record RecentProject : Type := mkRecent {
  recent_id : string;
  recent_name : string;
  recent_timestamp : Z;
  recent_nodeCount : nat;
  recent_pipeCount : nat;
  recent_nodes : list AppNode;
  recent_edges : list AppEdge;
  recent_pressureDrop : R
}.

Record State : Type := mkState {
  currentProjectId : option string;
  projectName : string;
  nodes : list AppNode;
  edges : list AppEdge;
  pressureDrop : R;
  showSaveAsModal : bool;
  recentProjects : list RecentProject;
  storedRecents : option (list RecentProject)
}.

Definition saveToStorage (now : Z) (id name : string) (st : State) : State :=
  let newRecent :=
    mkRecent id name now (length (nodes st)) (length (edges st))
             (nodes st) (edges st) (pressureDrop st) in
  let updatedRecents :=
    take 15 (newRecent :: filter (λ p, recent_id p ≠ id) (recentProjects st)) in
  mkState (currentProjectId st) (projectName st) (nodes st) (edges st)
          (pressureDrop st) (showSaveAsModal st) updatedRecents (Some updatedRecents).

Definition handleSave (rand : string) (now : Z) (st : State) : State :=
  let id := if truthy (currentProjectId st)
            then default EmptyString (currentProjectId st) else rand in
  let saved := saveToStorage now id (projectName st) st in
  mkState (if truthy (currentProjectId st) then currentProjectId st else Some id)
          (projectName st) (nodes st) (edges st) (pressureDrop st)
          (showSaveAsModal st) (recentProjects saved) (storedRecents saved).

Definition handleSaveAs (newId : string) (now : Z) (newName : string)
    (st : State) : State :=
  if is_blank newName then st
  else
    let saved := saveToStorage now newId newName st in
    mkState (Some newId) newName (nodes st) (edges st) (pressureDrop st)
            false (recentProjects saved) (storedRecents saved).

(** [Partial<AppNode>]: the fields an update carries. *)
Record NodeUpdates : Type := mkNodeUpdates {
  new_node_id : option string;
  new_node_type : option NodeType;
  new_node_x : option R;
  new_node_y : option R;
  new_node_name : option string;
  new_node_btu : option Z
}.

(** [{ ...n, ...updates }] *)
Definition spread_node (n : AppNode) (updates : NodeUpdates) : AppNode :=
  mkNode (default (node_id n) (new_node_id updates))
         (default (node_type n) (new_node_type updates))
         (default (node_x n) (new_node_x updates))
         (default (node_y n) (new_node_y updates))
         (default (node_name n) (new_node_name updates))
         (default (node_btu n) (new_node_btu updates)).

Definition updateNode (id : string) (updates : NodeUpdates)
    (prev : list AppNode) : list AppNode :=
  (λ n, if bool_decide (node_id n = id) then spread_node n updates else n) <$> prev.

(** [Partial<AppEdge>] *)
Record EdgeUpdates : Type := mkEdgeUpdates {
  new_edge_id : option string;
  new_edge_from : option string;
  new_edge_to : option string;
  new_edge_size : option string;
  new_edge_length : option R
}.

Definition spread_edge (e : AppEdge) (updates : EdgeUpdates) : AppEdge :=
  mkEdge (default (edge_id e) (new_edge_id updates))
         (default (edge_from e) (new_edge_from updates))
         (default (edge_to e) (new_edge_to updates))
         (default (edge_size e) (new_edge_size updates))
         (default (edge_length e) (new_edge_length updates)).

Definition updateEdge (id : string) (updates : EdgeUpdates)
    (prev : list AppEdge) : list AppEdge :=
  (λ e, if bool_decide (edge_id e = id) then spread_edge e updates else e) <$> prev.

(** [getSummary().pipeTotals] *)
Definition getSummary (edges : list AppEdge) : gmap string R :=
  foldl (λ pipeTotals edge,
           <[edge_size edge :=
               (default 0%R (pipeTotals !! edge_size edge) + edge_length edge)%R]>
             pipeTotals)
        ∅ edges.
(** The "New Project" buttons (lines 200 and 238), on the state kept
    here. *)
Definition newProject (st : State) : State :=
  mkState None "New Project" [] [] (pressureDrop st) (showSaveAsModal st)
          (recentProjects st) (storedRecents st).

(** The button of a recent project (lines 212 and 254). *)
Definition openRecent (p : RecentProject) (st : State) : State :=
  mkState (Some (recent_id p)) (recent_name p) (recent_nodes p) (recent_edges p)
          (recent_pressureDrop p) (showSaveAsModal st)
          (recentProjects st) (storedRecents st).
End Part002Shell.

(** The lengths of a list of pipes, added up from the left, from [init]. *)
Definition add_lengths (init : R) (l : list AppEdge) : R :=
  foldl (λ acc e, (acc + edge_length e)%R) init l.

(** An update of the kind the property panels send for a pipe: size or
    length. *)
Definition keeps_ends (updates : Part002Shell.EdgeUpdates) : Prop :=
  Part002Shell.new_edge_id updates = None
  ∧ Part002Shell.new_edge_from updates = None
  ∧ Part002Shell.new_edge_to updates = None.

(** An update of a node that leaves its identifier, type and demand. *)
Definition keeps_demand (updates : Part002Shell.NodeUpdates) : Prop :=
  Part002Shell.new_node_id updates = None
  ∧ Part002Shell.new_node_type updates = None
  ∧ Part002Shell.new_node_btu updates = None.

(** The sample project open in part_002, already saved once. *)
Definition demo_recent : Part002Shell.RecentProject :=
  Part002Shell.mkRecent "p1" "Kitchen" 5 4 3 demo_nodes demo_edges 0.5.

Definition demo_part002 : Part002Shell.State :=
  Part002Shell.mkState (Some "p1") "Kitchen" demo_nodes demo_edges 0.5 true
                       [demo_recent] (Some [demo_recent]).

(** ** Notions for the validator of src/index.tsx *)

(** The node as the aggregator of src/index.tsx reads it: its demand
    counts whatever its type. *)
Definition as_appliance (n : AppNode) : AppNode :=
  mkNode (node_id n) APPLIANCE (node_x n) (node_y n) (node_name n) (node_btu n).

(** The body of [validate] of src/index.tsx from a given state onwards. *)
Definition index_validate_from (nodes : list AppNode) (edges : list AppEdge)
    (fuel : nat) (acc : Index.Completion) (l : list AppEdge) : Index.Completion :=
  foldl (λ acc e,
           match acc with
           | Index.Returns results =>
             match Index.getFlow nodes edges fuel (edge_id e) with
             | None => Index.OutOfFuel
             | Some flow =>
               match property_of Index.PIPE_SPECS (edge_size e) with
               | Undefined => Index.Throws
               | Inherited =>
                 Index.Returns (<[edge_id e := Index.mkVerdict false flow]> results)
               | Own spec =>
                 let cap := spec_capacity spec in
                 Index.Returns
                   (<[edge_id e := Index.mkVerdict (bool_decide (flow ≤ cap)) flow]> results)
               end
             end
           | _ => acc
           end)
        acc l.

(** The entry that [validate] of src/index.tsx stores for a pipe whose
    size is a property of the table. *)
Definition index_verdict (e : AppEdge) (flow : Z) : Index.Verdict :=
  match property_of Index.PIPE_SPECS (edge_size e) with
  | Own spec => Index.mkVerdict (bool_decide (flow ≤ spec_capacity spec)) flow
  | _ => Index.mkVerdict false flow
  end.

(** The contract of the validator of src/index.tsx: the pass returns a
    mapping whose entry for every edge holds the flow of its own
    aggregator and the comparison, not strict, with the capacity column
    of the row of the edge's size. *)
Definition index_verdicts_sound (nodes : list AppNode) (edges : list AppEdge) : Prop :=
  ∃ results,
    Index.validate nodes edges (enough_fuel edges) = Index.Returns results
    ∧ ∀ e, e ∈ edges →
        ∃ v spec, results !! edge_id e = Some v
             ∧ Index.PIPE_SPECS !! edge_size e = Some spec
             ∧ Index.getFlow_returns nodes edges (edge_id e) (Index.flow v)
             ∧ Index.isValid v = bool_decide (Index.flow v ≤ spec_capacity spec)
             ∧ (Index.flow v = spec_capacity spec → Index.isValid v = true).

(** The pieces of a split, put together again. *)
Definition join (pieces : list string) : string :=
  foldr String.append EmptyString pieces.

(** A size whose lookup in the table gives a row or nothing: it names
    no property that the table only inherits. *)
Definition row_or_nothing (T : gmap string PipeSpec) (size : string) : Prop :=
  is_Some (T !! size) ∨ size ∉ Object_prototype.

(** The share by which a length is kept away from the length
    [pressureDrop / coeff] at which the capacity changes from 1000 to 0:
    one part in a million, far more than binary64 arithmetic rounds. *)
Definition clear_of_threshold : R := 1.000001%R.

(** * Properties *)

(** ** Capacity Model *)

Lemma App_capacity_is_half T size length :
  App.calculateCapacity T size length = Part002.calculateCapacity T 0.5 size length.
Proof. reflexivity. Qed.

Lemma Index_specs_lookup (s : PipeSize) :
  Index.PIPE_SPECS !! PipeSize_value s =
  Some (match s with
        | THREE_EIGHTHS => mkSpec (PipeSize_value THREE_EIGHTHS) 0.00002158927 2.02558185 46000
        | HALF => mkSpec (PipeSize_value HALF) 0.00000410606 2.1590935 77000
        | THREE_QUARTERS => mkSpec (PipeSize_value THREE_QUARTERS) 0.00000123682 2.00156167 200000
        | ONE => mkSpec (PipeSize_value ONE) 0.0000010746 1.77654817 423000
        | ONE_AND_QUARTER =>
            mkSpec (PipeSize_value ONE_AND_QUARTER) 1.1678553403503E-07 1.992081557687 662000
        end).
Proof. destruct s; reflexivity. Qed.

Lemma Index_specs_complete : complete_specs Index.PIPE_SPECS.
Proof. intros s. rewrite Index_specs_lookup. eauto. Qed.

Lemma Index_specs_positive : positive_specs Index.PIPE_SPECS.
Proof.
  intros size spec H. unfold Index.PIPE_SPECS in H.
  apply elem_of_list_to_map_2 in H.
  repeat (apply elem_of_cons in H as [H|H]; [inversion H; subst; simpl; lra|]).
  by apply elem_of_nil in H.
Qed.

Lemma property_of_row T size spec :
  T !! size = Some spec → property_of T size = Own spec.
Proof. intros Hrow. unfold property_of. by rewrite Hrow. Qed.

(** No size of the enum names a property of [Object.prototype]. *)
Lemma PipeSize_not_inherited (s : PipeSize) : PipeSize_value s ∉ Object_prototype.
Proof. destruct s; compute_done. Qed.

Lemma property_of_enum T (s : PipeSize) :
  property_of T (PipeSize_value s)
  = match T !! PipeSize_value s with Some spec => Own spec | None => Undefined end.
Proof.
  unfold property_of. destruct (T !! PipeSize_value s); [done|].
  rewrite bool_decide_eq_false_2; [done|apply PipeSize_not_inherited].
Qed.

Lemma capacity_of_row T dp size spec length :
  T !! size = Some spec → (0 < length)%R →
  Part002.calculateCapacity T dp size length = sizing_formula dp spec length.
Proof.
  intros Hrow Hlen. unfold Part002.calculateCapacity.
  rewrite (property_of_row _ _ _ Hrow).
  destruct (Rle_dec length 0) as [Hle|_]; [lra|reflexivity].
Qed.

Lemma Rpower_one (y : R) : Rpower 1 y = 1%R.
Proof. unfold Rpower. by rewrite ln_1, Rmult_0_r, exp_0. Qed.

Lemma Zfloor_Rpower_below_one (x y : R) :
  (0 < x < 1)%R → (0 < y)%R → Zfloor (Rpower x y) = 0.
Proof.
  intros Hx Hy. apply Zfloor_eq. split.
  - left. apply exp_pos.
  - rewrite Rplus_0_l, <- (Rpower_one y). apply Rlt_Rpower_l; lra.
Qed.

Lemma sizing_formula_monotone dp spec L1 L2 :
  (0 < spec_coeff spec)%R → (0 < spec_exp spec)%R →
  (0 < dp)%R → (0 < L1 <= L2)%R →
  sizing_formula dp spec L2 ≤ sizing_formula dp spec L1.
Proof.
  intros Hc He Hdp [HL1 HL12]. unfold sizing_formula.
  apply Z.mul_le_mono_nonneg_r; [lia|]. apply Zfloor_le.
  assert (0 < dp / L2 / spec_coeff spec)%R as Hpos.
  { repeat apply Rdiv_lt_0_compat; lra. }
  apply Rle_Rpower_l.
  - left. apply Rdiv_lt_0_compat; lra.
  - split; [done|].
    apply Rmult_le_compat_r; [left; by apply Rinv_0_lt_compat|].
    apply Rmult_le_compat_l; [lra|].
    apply Rinv_le_contravar; lra.
Qed.

(** C7: for every enumerated size a length [<= 0] gives capacity 0, in
    both builds of the capacity model; nothing is raised. *)
Theorem capacity_nonpositive_length T dp (s : PipeSize) (length : R) :
  (length <= 0)%R →
  Part002.calculateCapacity T dp (PipeSize_value s) length = 0
  ∧ App.calculateCapacity T (PipeSize_value s) length = 0.
Proof.
  intros Hle. rewrite App_capacity_is_half. unfold Part002.calculateCapacity.
  rewrite property_of_enum. destruct (T !! PipeSize_value s); [|done].
  by destruct (Rle_dec length 0).
Qed.

Lemma capacity_nonpositive_length_witness :
  Part002.calculateCapacity Index.PIPE_SPECS 0.5 (PipeSize_value HALF) 0 = 0
  ∧ App.calculateCapacity Index.PIPE_SPECS (PipeSize_value HALF) 0 = 0.
Proof. apply (capacity_nonpositive_length Index.PIPE_SPECS 0.5 HALF 0). lra. Defined.

(** C8: for a fixed size and a positive design pressure drop the capacity
    does not grow with the length: [0 < L1 <= L2] gives
    [capacity L2 <= capacity L1], both of them whole numbers. *)
Theorem capacity_monotone T dp (s : PipeSize) (L1 L2 : R) :
  positive_specs T → (0 < dp)%R → (0 < L1 <= L2)%R →
  number_le (Part002.calculateCapacity T dp (PipeSize_value s) L2)
            (Part002.calculateCapacity T dp (PipeSize_value s) L1)
  ∧ number_le (App.calculateCapacity T (PipeSize_value s) L2)
              (App.calculateCapacity T (PipeSize_value s) L1).
Proof.
  intros Hpos Hdp HL. rewrite !App_capacity_is_half.
  assert (∀ d, (0 < d)%R →
    number_le (Part002.calculateCapacity T d (PipeSize_value s) L2)
              (Part002.calculateCapacity T d (PipeSize_value s) L1)) as Hmono.
  { intros d Hd. destruct (T !! PipeSize_value s) as [spec|] eqn:Hrow.
    - rewrite !(capacity_of_row T d _ spec) by (done || lra).
      destruct (Hpos _ _ Hrow). by apply sizing_formula_monotone.
    - unfold Part002.calculateCapacity. by rewrite property_of_enum, Hrow. }
  split; apply Hmono; lra.
Qed.

Lemma capacity_monotone_witness :
  number_le (Part002.calculateCapacity Index.PIPE_SPECS 0.5 (PipeSize_value HALF) 20)
            (Part002.calculateCapacity Index.PIPE_SPECS 0.5 (PipeSize_value HALF) 10)
  ∧ number_le (App.calculateCapacity Index.PIPE_SPECS (PipeSize_value HALF) 20)
              (App.calculateCapacity Index.PIPE_SPECS (PipeSize_value HALF) 10).
Proof.
  apply (capacity_monotone Index.PIPE_SPECS 0.5 HALF 10 20).
  - exact Index_specs_positive.
  - lra.
  - lra.
Defined.




(** C2, as amended: for every enumerated size with row [spec] and every
    length [> 0] the capacity is
    [floor(((designPressureDrop / length) / coeff) ^ (1 / exp)) * 1000];
    the pressure drop is one value for all edges: the project state in
    part_002, the constant 0.5 in src/App.tsx. *)
Theorem capacity_closed_form T dp (s : PipeSize) (spec : PipeSpec) (length : R) :
  T !! PipeSize_value s = Some spec → (0 < length)%R →
  Part002.calculateCapacity T dp (PipeSize_value s) length
    = sizing_formula dp spec length
  ∧ App.calculateCapacity T (PipeSize_value s) length
    = sizing_formula 0.5 spec length.
Proof.
  intros Hrow Hlen. rewrite App_capacity_is_half.
  split; by apply capacity_of_row.
Qed.

Lemma capacity_closed_form_witness :
  Part002.calculateCapacity Index.PIPE_SPECS 1 (PipeSize_value HALF) 10
    = sizing_formula 1 (mkSpec (PipeSize_value HALF) 0.00000410606 2.1590935 77000) 10
  ∧ App.calculateCapacity Index.PIPE_SPECS (PipeSize_value HALF) 10
    = sizing_formula 0.5 (mkSpec (PipeSize_value HALF) 0.00000410606 2.1590935 77000) 10.
Proof.
  apply (capacity_closed_form Index.PIPE_SPECS 1 HALF).
  - apply (Index_specs_lookup HALF).
  - lra.
Defined.

(** C2 as stated fails on src/App.tsx: for a project whose design
    pressure drop is 0.00001, size 1/2 and length 10, the formula gives
    0, while the build computes with its constant 0.5 and returns at
    least 1000. *)
Lemma App_capacity_ignores_project_pressure :
  ¬ (∀ (designPressureDrop : R) (s : PipeSize) (spec : PipeSpec) (length : R),
       (0 < designPressureDrop)%R →
       Index.PIPE_SPECS !! PipeSize_value s = Some spec → (0 < length)%R →
       App.calculateCapacity Index.PIPE_SPECS (PipeSize_value s) length
         = sizing_formula designPressureDrop spec length).
Proof.
  intros H.
  specialize (H 0.00001%R HALF _ 10%R ltac:(lra) (Index_specs_lookup HALF) ltac:(lra)).
  rewrite App_capacity_is_half in H.
  rewrite (capacity_of_row _ 0.5 _ _ _ (Index_specs_lookup HALF)) in H by lra.
  unfold sizing_formula in H. simpl spec_coeff in H. simpl spec_exp in H.
  rewrite (Zfloor_Rpower_below_one (0.00001 / 10 / 0.00000410606)) in H by lra.
  assert (1 ≤ Zfloor (Rpower (0.5 / 10 / 0.00000410606) (1 / 2.1590935))) as Hone.
  { apply Zfloor_lub. apply Rle_trans with (Rpower 1 (1 / 2.1590935)).
    - rewrite Rpower_one. lra.
    - apply Rle_Rpower_l; lra. }
  injection H as H. lia.
Qed.

(** ** Demand Aggregator *)

Section AggregatorFacts.
Variable nodes : list AppNode.
Variable edges : list AppEdge.

Lemma find_edge_Some edgeId e :
  find_edge edges edgeId = Some e → e ∈ edges ∧ edge_id e = edgeId.
Proof.
  unfold find_edge. intros H. apply find_some in H as [Hin Hid].
  apply bool_decide_eq_true in Hid. by rewrite list_elem_of_In.
Qed.

Lemma find_edge_unique e :
  unique_edge_ids edges → e ∈ edges → find_edge edges (edge_id e) = Some e.
Proof.
  unfold unique_edge_ids, find_edge. induction edges as [|x l IH]; intros Hnd Hin.
  - by apply elem_of_nil in Hin.
  - rewrite fmap_cons in Hnd. apply NoDup_cons in Hnd as [Hx Hnd]. simpl.
    case_bool_decide as Hid.
    + apply elem_of_cons in Hin as [->|Hin]; [done|].
      destruct Hx. rewrite Hid. by apply list_elem_of_fmap_2.
    + apply elem_of_cons in Hin as [->|Hin]; [done|]. by apply IH.
Qed.

Lemma find_node_Some id n :
  find_node nodes id = Some n → n ∈ nodes ∧ node_id n = id.
Proof.
  unfold find_node. intros H. apply find_some in H as [Hin Hid].
  apply bool_decide_eq_true in Hid. by rewrite list_elem_of_In.
Qed.

Lemma outgoing_spec id e :
  e ∈ outgoing edges id ↔ e ∈ edges ∧ edge_from e = id.
Proof. unfold outgoing. rewrite list_elem_of_filter. tauto. Qed.

Lemma getFlow_unfold fuel edgeId :
  getFlow nodes edges (S fuel) edgeId =
  match find_edge edges edgeId with
  | None => Some 0
  | Some edge =>
    match find_node nodes (edge_to edge) with
    | None => Some 0
    | Some targetNode =>
      add_flows (getFlow nodes edges fuel)
        (if decide (node_type targetNode = APPLIANCE)
         then 0 + node_btu targetNode else 0)
        (outgoing edges (node_id targetNode))
    end
  end.
Proof. reflexivity. Qed.
End AggregatorFacts.

Lemma add_flows_cons sub init out outs :
  add_flows sub init (out :: outs) =
  match sub (edge_id out) with
  | Some s => add_flows sub (init + s) outs
  | None => None
  end.
Proof.
  unfold add_flows. simpl. destruct (sub (edge_id out)) as [s|]; simpl; [done|].
  induction outs as [|o l IH]; [done|]. simpl. exact IH.
Qed.

(** The loop returns exactly when every call in it does, with the sum. *)
Lemma add_flows_Some sub init outs v :
  add_flows sub init outs = Some v ↔
  ∃ flows, Forall2 (λ out x, sub (edge_id out) = Some x) outs flows
           ∧ v = init + total flows.
Proof.
  revert init. induction outs as [|out outs IH]; intros init.
  - split.
    + intros [= <-]. exists []. split; [constructor|simpl; lia].
    + intros (flows & HF & ->). inversion HF; subst. unfold add_flows; simpl.
      f_equal. lia.
  - rewrite add_flows_cons. split.
    + destruct (sub (edge_id out)) as [s|] eqn:Hs; [|done].
      intros (flows & HF & ->)%IH. exists (s :: flows).
      split; [by constructor|simpl; lia].
    + intros (flows & HF & ->). inversion HF as [|? x ? fl Hx HF']; subst.
      rewrite Hx. apply IH. exists fl. split; [done|simpl; lia].
Qed.

Lemma add_flows_None sub init outs :
  add_flows sub init outs = None →
  ∃ out, out ∈ outs ∧ sub (edge_id out) = None.
Proof.
  revert init. induction outs as [|out outs IH]; intros init; [done|].
  rewrite add_flows_cons. destruct (sub (edge_id out)) as [s|] eqn:Hs.
  - intros (o & Ho & Hn)%IH. exists o. split; [by right|done].
  - intros _. exists out. split; [by left|done].
Qed.

Lemma add_flows_mono (sub sub' : string → option Z) init outs v :
  (∀ id x, sub id = Some x → sub' id = Some x) →
  add_flows sub init outs = Some v → add_flows sub' init outs = Some v.
Proof.
  intros Hsub. rewrite !add_flows_Some. intros (flows & HF & ->).
  exists flows. split; [|done]. eapply Forall2_impl; [exact HF|].
  intros out x. apply Hsub.
Qed.

(** More fuel does not change a result. *)
Lemma getFlow_fuel_mono nodes edges fuel fuel' edgeId v :
  (fuel ≤ fuel')%nat →
  getFlow nodes edges fuel edgeId = Some v →
  getFlow nodes edges fuel' edgeId = Some v.
Proof.
  revert fuel' edgeId v. induction fuel as [|fuel IH]; intros fuel' edgeId v Hle; [done|].
  destruct fuel' as [|fuel']; [lia|]. rewrite !getFlow_unfold.
  destruct (find_edge edges edgeId) as [edge|]; [|done].
  destruct (find_node nodes (edge_to edge)) as [targetNode|]; [|done].
  apply add_flows_mono. intros id x. apply IH. lia.
Qed.

Lemma getFlow_returns_functional nodes edges edgeId v v' :
  getFlow_returns nodes edges edgeId v →
  getFlow_returns nodes edges edgeId v' → v = v'.
Proof.
  intros [f Hf] [f' Hf'].
  apply (getFlow_fuel_mono _ _ _ (f `max` f')%nat) in Hf; [|lia].
  apply (getFlow_fuel_mono _ _ _ (f `max` f')%nat) in Hf'; [|lia].
  congruence.
Qed.

(** Finitely many returning calls return within one common depth. *)
Lemma getFlow_returns_common nodes edges (outs : list AppEdge) flows :
  Forall2 (λ E x, getFlow_returns nodes edges (edge_id E) x) outs flows →
  ∃ fuel, Forall2 (λ E x, getFlow nodes edges fuel (edge_id E) = Some x) outs flows.
Proof.
  induction 1 as [|E x outs flows [f Hf] _ [f' IH]].
  - exists O. constructor.
  - exists (f `max` f')%nat. constructor.
    + eapply getFlow_fuel_mono; [|exact Hf]. lia.
    + eapply Forall2_impl; [exact IH|]. intros E' x' H'. simpl in H'.
      eapply getFlow_fuel_mono; [|exact H']. lia.
Qed.

(** The equation of the aggregator of src/App.tsx and part_002: only an
    APPLIANCE contributes its btu. *)
Lemma getFlow_equation nodes edges (e : AppEdge) :
  unique_edge_ids edges → e ∈ edges →
  flow_equation (getFlow_returns nodes edges) appliance_demand nodes edges e.
Proof.
  intros Huniq Hin. pose proof (find_edge_unique edges e Huniq Hin) as Hfind.
  unfold flow_equation, appliance_demand.
  destruct (find_node nodes (edge_to e)) as [target|] eqn:Hnode.
  - intros v. split.
    + intros [[|fuel] Hret]; [done|].
      rewrite getFlow_unfold, Hfind, Hnode in Hret.
      apply add_flows_Some in Hret as (flows & HF & ->).
      exists flows. split.
      * eapply Forall2_impl; [exact HF|]. intros E x HE. by exists fuel.
      * by destruct (decide (node_type target = APPLIANCE)).
    + intros (flows & HF & ->).
      apply getFlow_returns_common in HF as [fuel HF].
      exists (S fuel). rewrite getFlow_unfold, Hfind, Hnode.
      apply add_flows_Some. exists flows. split; [exact HF|].
      by destruct (decide (node_type target = APPLIANCE)).
  - intros v. split.
    + intros [[|fuel] Hret]; [done|].
      rewrite getFlow_unfold, Hfind, Hnode in Hret. congruence.
    + intros ->. exists 1%nat. by rewrite getFlow_unfold, Hfind, Hnode.
Qed.

Lemma demo_edges_unique : unique_edge_ids demo_edges.
Proof. unfold unique_edge_ids. compute_done. Qed.

Example demo_flow_junction :
  getFlow demo_nodes demo_edges 3 "e1" = Some 105000.
Proof. reflexivity. Qed.

Example demo_flow_leaf :
  getFlow demo_nodes demo_edges 3 "e2" = Some 40000.
Proof. reflexivity. Qed.

(** *** Termination *)

Section Termination.
Variable nodes : list AppNode.
Variable edges : list AppEdge.
Hypothesis Huniq : unique_edge_ids edges.

Lemma chain_head_in e l : chain edges (e :: l) → e ∈ edges.
Proof. by inversion 1. Qed.

Lemma chain_subset l : chain edges l → ∀ x, x ∈ l → x ∈ edges.
Proof.
  induction 1 as [e He|e e' l He Hlink Hch IH]; intros x Hx.
  - apply list_elem_of_singleton in Hx as ->. done.
  - apply elem_of_cons in Hx as [->|Hx]; [done|by apply IH].
Qed.

Lemma chain_reach e l e' :
  chain edges (e :: l) → e' ∈ l →
  tc (pipe_step edges) (edge_from e) (edge_from e').
Proof.
  revert e. induction l as [|e2 l IH]; intros e Hch Hin.
  - by apply elem_of_nil in Hin.
  - inversion Hch as [|? ? ? He Hlink Hch']; subst.
    assert (pipe_step edges (edge_from e) (edge_from e2)) as Hstep.
    { exists e. by rewrite Hlink. }
    apply elem_of_cons in Hin as [->|Hin].
    + by apply tc_once.
    + eapply tc_l; [exact Hstep|]. by apply IH.
Qed.

Lemma chain_NoDup l : acyclic edges → chain edges l → NoDup l.
Proof.
  intros Hacyc. induction 1 as [e He|e e' l He Hlink Hch IH].
  - apply NoDup_singleton.
  - apply NoDup_cons. split; [|exact IH].
    intros Hin. apply (Hacyc (edge_from e)).
    eapply chain_reach; [|exact Hin]. by constructor.
Qed.

(** A call that is still running at depth [S fuel] has followed a chain
    of [S fuel] pipes. *)
Lemma getFlow_None_chain fuel e :
  e ∈ edges → getFlow nodes edges (S fuel) (edge_id e) = None →
  ∃ l, chain edges (e :: l) ∧ length l = fuel.
Proof.
  revert e. induction fuel as [|fuel IH]; intros e Hin Hnone.
  - exists []. split; [by constructor|done].
  - rewrite getFlow_unfold, (find_edge_unique edges e Huniq Hin) in Hnone.
    destruct (find_node nodes (edge_to e)) as [target|] eqn:Hnode; [|done].
    apply add_flows_None in Hnone as (out & Hout & Hnone).
    apply outgoing_spec in Hout as [Hout Hfrom].
    apply find_node_Some in Hnode as [_ Hid].
    destruct (IH out Hout Hnone) as (l & Hch & Hlen).
    exists (out :: l). split; [|simpl; lia].
    constructor; [done|congruence|done].
Qed.

Lemma getFlow_enough_fuel edgeId :
  acyclic edges → is_Some (getFlow nodes edges (enough_fuel edges) edgeId).
Proof.
  intros Hacyc. unfold enough_fuel.
  destruct (getFlow nodes edges (S (length edges)) edgeId) as [v|] eqn:Hrun; [by eexists|].
  exfalso. destruct (find_edge edges edgeId) as [e|] eqn:Hfind.
  2: { by rewrite getFlow_unfold, Hfind in Hrun. }
  apply find_edge_Some in Hfind as [Hin <-].
  destruct (getFlow_None_chain _ e Hin Hrun) as (l & Hch & Hlen).
  pose proof (chain_NoDup _ Hacyc Hch) as Hnd.
  pose proof (chain_subset _ Hch) as Hsub.
  apply NoDup_submseteq in Hsub; [|done].
  apply submseteq_length in Hsub. simpl in Hsub. lia.
Qed.
End Termination.

(** C5: on an edge set without a cycle (and with the unique edge
    identifiers of the data model) the recursion of the Demand Aggregator
    ends for every edge: each call returns a value, within a nesting
    depth of one more than the number of edges. *)
Theorem getFlow_terminates nodes edges :
  unique_edge_ids edges → acyclic edges →
  ∀ e, e ∈ edges →
    ∃ v, getFlow nodes edges (enough_fuel edges) (edge_id e) = Some v.
Proof.
  intros Huniq Hacyc e _.
  destruct (getFlow_enough_fuel nodes edges Huniq (edge_id e) Hacyc) as [v Hv].
  by exists v.
Qed.

(** *** A concrete acyclic project *)

(** A rank on the nodes that every pipe increases rules out cycles. *)
Lemma acyclic_of_rank (rank : string → nat) edges :
  (∀ e, e ∈ edges → (rank (edge_from e) < rank (edge_to e))%nat) →
  acyclic edges.
Proof.
  intros Hrank a Hloop.
  assert (∀ x y, tc (pipe_step edges) x y → (rank x < rank y)%nat) as Hup.
  { induction 1 as [x y (e & He & <- & <-)|x y z (e & He & <- & <-) _ IH].
    - by apply Hrank.
    - specialize (Hrank e He). lia. }
  specialize (Hup a a Hloop). lia.
Qed.

Definition demo_rank (id : string) : nat :=
  if bool_decide (id = "m") then 0
  else if bool_decide (id = "j") then 1 else 2.

Lemma demo_edges_acyclic : acyclic demo_edges.
Proof.
  apply (acyclic_of_rank demo_rank). intros e He. unfold demo_edges in He.
  repeat (apply elem_of_cons in He as [->|He]; [compute; lia|]).
  by apply elem_of_nil in He.
Qed.

Lemma getFlow_terminates_witness :
  ∃ v, getFlow demo_nodes demo_edges (enough_fuel demo_edges) "e1" = Some v.
Proof.
  apply (getFlow_terminates demo_nodes demo_edges demo_edges_unique
           demo_edges_acyclic (mkEdge "e1" "m" "j" (PipeSize_value HALF) 10)).
  by left.
Defined.

(** The precondition matters: on a loop no depth suffices. *)
Lemma getFlow_loop_diverges fuel :
  getFlow loop_nodes loop_edges fuel "ab" = None
  ∧ getFlow loop_nodes loop_edges fuel "ba" = None.
Proof.
  induction fuel as [|fuel [IHab IHba]]; [done|].
  rewrite !getFlow_unfold. simpl.
  change (outgoing loop_edges "b") with [mkEdge "ba" "b" "a" (PipeSize_value HALF) 10].
  change (outgoing loop_edges "a") with [mkEdge "ab" "a" "b" (PipeSize_value HALF) 10].
  rewrite !add_flows_cons. simpl. by rewrite IHab, IHba.
Qed.

(** ** Validator *)

Lemma validateSystem_from cap nodes edges fuel :
  validateSystem cap nodes edges fuel
  = validate_from cap nodes edges fuel (Some ∅) edges.
Proof. reflexivity. Qed.

Lemma validate_from_None cap nodes edges fuel l :
  validate_from cap nodes edges fuel None l = None.
Proof. induction l as [|e l IH]; [done|exact IH]. Qed.

Lemma validate_from_cons cap nodes edges fuel acc e l :
  validate_from cap nodes edges fuel (Some acc) (e :: l) =
  match getFlow nodes edges fuel (edge_id e) with
  | Some flow =>
      validate_from cap nodes edges fuel
        (Some (<[edge_id e := verdict_for cap e flow]> acc)) l
  | None => None
  end.
Proof.
  unfold validate_from at 1. simpl.
  destruct (getFlow nodes edges fuel (edge_id e)) as [flow|]; simpl; [done|].
  apply validate_from_None.
Qed.

(** The pass returns as soon as every flow does. *)
Lemma validate_from_total cap nodes edges fuel acc l :
  (∀ e, e ∈ l → is_Some (getFlow nodes edges fuel (edge_id e))) →
  is_Some (validate_from cap nodes edges fuel (Some acc) l).
Proof.
  revert acc. induction l as [|e l IH]; intros acc Hall; [by eexists|].
  rewrite validate_from_cons. destruct (Hall e) as [flow ->]; [by left|].
  apply IH. intros e' He'. apply Hall. by right.
Qed.

(** Keys that belong to no edge of the pass keep their old state. *)
Lemma validate_from_other cap nodes edges fuel acc l results k :
  validate_from cap nodes edges fuel (Some acc) l = Some results →
  k ∉ edge_id <$> l → results !! k = acc !! k.
Proof.
  revert acc. induction l as [|e l IH]; intros acc Hrun Hk.
  - by injection Hrun as <-.
  - rewrite validate_from_cons in Hrun.
    destruct (getFlow nodes edges fuel (edge_id e)) as [flow|]; [|done].
    rewrite fmap_cons, not_elem_of_cons in Hk. destruct Hk as [Hne Hk].
    rewrite (IH _ Hrun Hk). by apply lookup_insert_ne.
Qed.

Lemma validate_from_entry cap nodes edges fuel acc l results e :
  NoDup (edge_id <$> l) →
  validate_from cap nodes edges fuel (Some acc) l = Some results →
  e ∈ l →
  ∃ flow, getFlow nodes edges fuel (edge_id e) = Some flow
          ∧ results !! edge_id e = Some (verdict_for cap e flow).
Proof.
  revert acc. induction l as [|x l IH]; intros acc Hnd Hrun Hin.
  - by apply elem_of_nil in Hin.
  - rewrite validate_from_cons in Hrun. rewrite fmap_cons in Hnd.
    apply NoDup_cons in Hnd as [Hx Hnd].
    destruct (getFlow nodes edges fuel (edge_id x)) as [flow|] eqn:Hflow; [|done].
    apply elem_of_cons in Hin as [->|Hin].
    + exists flow. split; [done|].
      rewrite (validate_from_other _ _ _ _ _ _ _ _ Hrun Hx).
      apply lookup_insert_eq.
    + by apply (IH _ Hnd Hrun).
Qed.

Lemma verdicts_sound_any cap nodes edges :
  unique_edge_ids edges → acyclic edges → verdicts_sound cap nodes edges.
Proof.
  intros Huniq Hacyc.
  destruct (validate_from_total cap nodes edges (enough_fuel edges) ∅ edges) as [results Hrun].
  { intros e _. by apply getFlow_enough_fuel. }
  exists results. split; [exact Hrun|]. intros e He.
  destruct (validate_from_entry _ _ _ _ _ _ _ e Huniq Hrun He) as (fl & Hfl & Hentry).
  exists (verdict_for cap e fl). split; [exact Hentry|]. simpl.
  split; [by eexists|]. split; [done|]. split; [done|].
  intros ->. by apply bool_decide_eq_true.
Qed.

(** The threshold of the specification, by running the pass with a
    capacity of 105000 and of 77000 for every pipe. *)
Example verdict_at_capacity :
  (validateSystem (λ _ _, 105000) demo_nodes demo_edges 3
     ≫= λ results, results !! "e1")
  = Some (mkVerdict true 105000 105000).
Proof. reflexivity. Qed.

Example verdict_above_capacity :
  (validateSystem (λ _ _, 77000) demo_nodes demo_edges 3
     ≫= λ results, results !! "e1")
  = Some (mkVerdict false 105000 77000).
Proof. reflexivity. Qed.

(** ** Cascade deletion *)

Lemma acyclic_filter (P : AppEdge → Prop) `{!∀ e, Decision (P e)} edges :
  acyclic edges → acyclic (filter P edges).
Proof.
  intros Hacyc a Hloop. apply (Hacyc a).
  assert (∀ x y, tc (pipe_step (filter P edges)) x y → tc (pipe_step edges) x y) as Hsub.
  { assert (∀ x y, pipe_step (filter P edges) x y → pipe_step edges x y) as Hstep.
    { intros x y (e & He & Hx & Hy). exists e.
      apply list_elem_of_filter in He as [_ He]. done. }
    induction 1 as [x y Hxy|x y z Hxy _ IH].
    - apply tc_once. by apply Hstep.
    - eapply tc_l; [by apply Hstep|exact IH]. }
  by apply Hsub.
Qed.

Lemma unique_edge_ids_filter (P : AppEdge → Prop) `{!∀ e, Decision (P e)} edges :
  unique_edge_ids edges → unique_edge_ids (filter P edges).
Proof.
  unfold unique_edge_ids. intros Hnd. eapply sublist_NoDup; [exact Hnd|].
  apply fmap_sublist, sublist_filter.
Qed.

Lemma edge_id_injective edges e e' :
  unique_edge_ids edges → e ∈ edges → e' ∈ edges → edge_id e = edge_id e' → e = e'.
Proof.
  intros Huniq He He' Hid.
  pose proof (find_edge_unique edges e Huniq He) as H.
  pose proof (find_edge_unique edges e' Huniq He') as H'.
  rewrite Hid in H. congruence.
Qed.

Lemma removed_edge_id_gone (P : AppEdge → Prop) `{!∀ e, Decision (P e)} edges e :
  unique_edge_ids edges → e ∈ edges → ¬ P e →
  edge_id e ∉ edge_id <$> filter P edges.
Proof.
  intros Huniq He HnP Hin.
  apply list_elem_of_fmap in Hin as (e' & Hid & He').
  apply list_elem_of_filter in He' as [HP He'].
  by rewrite (edge_id_injective edges e e' Huniq He He' Hid) in HnP.
Qed.

Lemma handleDeleteNode_graph id st :
  App.nodes (Part002.handleDeleteNode id st) = App.nodes (App.onDeleteNode id st)
  ∧ App.edges (Part002.handleDeleteNode id st) = App.edges (App.onDeleteNode id st).
Proof. done. Qed.

(** C4: deleting a node removes the nodes with that identifier and every
    edge whose [from] or [to] is that identifier, keeps all other nodes
    and edges as they were and in their order, and the validation pass
    that follows returns a mapping with an entry for each remaining edge
    and none for a deleted edge.  part_002 changes the graph in the same
    way. *)
Theorem delete_node_cascade (calculateCapacity : string → R → number)
    (st : App.State) (id : string) :
  unique_edge_ids (App.edges st) → acyclic (App.edges st) →
  let st' := App.onDeleteNode id st in
  (∀ n, n ∈ App.nodes st' ↔ n ∈ App.nodes st ∧ node_id n ≠ id)
  ∧ (∀ e, e ∈ App.edges st' ↔
          e ∈ App.edges st ∧ edge_from e ≠ id ∧ edge_to e ≠ id)
  ∧ App.nodes st' `sublist_of` App.nodes st
  ∧ App.edges st' `sublist_of` App.edges st
  ∧ App.nodes (Part002.handleDeleteNode id st) = App.nodes st'
  ∧ App.edges (Part002.handleDeleteNode id st) = App.edges st'
  ∧ ∃ results,
      validateSystem calculateCapacity (App.nodes st') (App.edges st')
        (enough_fuel (App.edges st')) = Some results
      ∧ (∀ e, e ∈ App.edges st → edge_from e = id ∨ edge_to e = id →
              results !! edge_id e = None)
      ∧ (∀ e, e ∈ App.edges st' → is_Some (results !! edge_id e)).
Proof.
  intros Huniq Hacyc st'. subst st'. destruct st as [ns es tool size sel mob sme].
  simpl in *.
  split; [intros n; rewrite list_elem_of_filter; tauto|].
  split; [intros e; rewrite list_elem_of_filter; tauto|].
  split; [apply sublist_filter|]. split; [apply sublist_filter|].
  split; [done|]. split; [done|].
  set (P := λ e, edge_from e ≠ id ∧ edge_to e ≠ id).
  pose proof (unique_edge_ids_filter P es Huniq) as Huniq'.
  pose proof (acyclic_filter P es Hacyc) as Hacyc'.
  destruct (verdicts_sound_any calculateCapacity (filter (λ n, node_id n ≠ id) ns)
              (filter P es) Huniq' Hacyc') as (results & Hrun & Hentries).
  exists results. split; [exact Hrun|]. split.
  - intros e He Hends. rewrite validateSystem_from in Hrun.
    rewrite (validate_from_other _ _ _ _ _ _ _ (edge_id e) Hrun); [done|].
    apply removed_edge_id_gone; [done|done|]. unfold P.
    destruct Hends; tauto.
  - intros e He. destruct (Hentries e He) as (v & Hv & _). by exists v.
Qed.

Lemma delete_node_cascade_witness :
  ∃ results,
    validateSystem (App.calculateCapacity Index.PIPE_SPECS)
      (App.nodes (App.onDeleteNode "w" demo_state))
      (App.edges (App.onDeleteNode "w" demo_state))
      (enough_fuel (App.edges (App.onDeleteNode "w" demo_state))) = Some results
    ∧ results !! "e2" = None
    ∧ is_Some (results !! "e1").
Proof.
  destruct (delete_node_cascade (App.calculateCapacity Index.PIPE_SPECS)
              demo_state "w" demo_edges_unique demo_edges_acyclic)
    as (_ & Hedges & _ & _ & _ & _ & results & Hrun & Hgone & Hkept).
  exists results. split; [exact Hrun|]. split.
  - apply (Hgone (mkEdge "e2" "j" "w" (PipeSize_value HALF) 10)).
    + right. by left.
    + by right.
  - apply (Hkept (mkEdge "e1" "m" "j" (PipeSize_value HALF) 10)).
    apply Hedges. split; [by left|done].
Defined.

Example delete_junction_nodes :
  node_id <$> App.nodes (App.onDeleteNode "j" demo_state) = ["m"; "w"; "c"].
Proof. reflexivity. Qed.

Example delete_junction_edges :
  App.edges (App.onDeleteNode "j" demo_state) = [].
Proof. reflexivity. Qed.

Example delete_heater_edges :
  edge_id <$> App.edges (App.onDeleteNode "w" demo_state) = ["e1"; "e3"].
Proof. reflexivity. Qed.

(** ** Interaction State Machine *)

Lemma run_app w evs evs' :
  App.run w (evs ++ evs') = App.run (App.run w evs) evs'.
Proof. apply foldl_app. Qed.

Lemma is_target_node (nodes : list AppNode) (id : string) :
  id ∈ node_id <$> nodes →
  existsb (λ n, bool_decide (node_id n = id)) nodes = true.
Proof.
  intros (n & -> & Hn)%list_elem_of_fmap. apply existsb_exists.
  exists n. split; [by apply list_elem_of_In|by apply bool_decide_eq_true].
Qed.

(** In PIPE mode a tap on a node locks it when nothing is locked. *)
Lemma tap_locks_source w coords now rand (A : string) :
  App.selectedTool (App.app w) = pipe →
  truthy (Canvas.tapPipingSource (App.canvas w)) = false →
  A ∈ node_id <$> App.nodes (App.app w) →
  App.run w (App.tapNode coords now rand A) =
  App.mkWorld (App.setSelectedId None (App.app w))
    (Canvas.mkState None None (Canvas.mousePos (App.canvas w)) coords false
       (Some A) (Canvas.interactionState (App.canvas w))).
Proof.
  destruct w as [[ns es tool size sel mob sme] [drag pf mp ds hm tap ist]].
  simpl. intros -> Htap HA. apply is_target_node in HA.
  unfold App.run, App.tapNode, App.step, App.deliver. simpl.
  unfold Canvas.handleInteractionEnd, App.props. simpl.
  rewrite andb_false_r. simpl in HA. rewrite HA, Htap. reflexivity.
Qed.

(** A tap on another node completes the connection. *)
Lemma tap_completes_connection w coords now rand (src B : string) :
  App.selectedTool (App.app w) = pipe →
  Canvas.tapPipingSource (App.canvas w) = Some src →
  src ≠ EmptyString → src ≠ B →
  B ∈ node_id <$> App.nodes (App.app w) →
  App.run w (App.tapNode coords now rand B) =
  App.mkWorld (App.onAddEdge rand src B (App.app w))
    (Canvas.mkState None None (Canvas.mousePos (App.canvas w)) coords false
       None (Canvas.interactionState (App.canvas w))).
Proof.
  destruct w as [[ns es tool size sel mob sme] [drag pf mp ds hm tap ist]].
  simpl. intros -> -> Hne Hdiff HB. apply is_target_node in HB.
  unfold App.run, App.tapNode, App.step, App.deliver. simpl.
  unfold Canvas.handleInteractionEnd, App.props. simpl.
  rewrite andb_false_r. simpl in HB. rewrite HB.
  rewrite (bool_decide_eq_true_2 _ Hne). simpl.
  rewrite bool_decide_eq_false_2 by congruence. simpl.
  rewrite bool_decide_eq_true_2 by congruence. reflexivity.
Qed.

(** A tap on the locked node itself releases the lock. *)
Lemma tap_unlocks_source w coords now rand (A : string) :
  App.selectedTool (App.app w) = pipe →
  Canvas.tapPipingSource (App.canvas w) = Some A →
  A ≠ EmptyString →
  A ∈ node_id <$> App.nodes (App.app w) →
  App.run w (App.tapNode coords now rand A) =
  App.mkWorld (App.app w)
    (Canvas.mkState None None (Canvas.mousePos (App.canvas w)) coords false
       None (Canvas.interactionState (App.canvas w))).
Proof.
  destruct w as [[ns es tool size sel mob sme] [drag pf mp ds hm tap ist]].
  simpl. intros -> -> Hne HA. apply is_target_node in HA.
  unfold App.run, App.tapNode, App.step, App.deliver. simpl.
  unfold Canvas.handleInteractionEnd, App.props. simpl.
  rewrite andb_false_r. simpl in HA. rewrite HA.
  rewrite (bool_decide_eq_true_2 _ Hne). simpl.
  rewrite bool_decide_eq_true_2 by done. reflexivity.
Qed.

(** Pointer movement with nothing being dragged changes neither the
    graph nor the lock. *)
Lemma moves_keep_lock (moves : list Point) a mp ds hm tap ist :
  ∃ mp' hm',
    App.run (App.mkWorld a (Canvas.mkState None None mp ds hm tap ist))
            (App.InteractionMove <$> moves)
    = App.mkWorld a (Canvas.mkState None None mp' ds hm' tap ist).
Proof.
  revert mp hm. induction moves as [|c moves IH]; intros mp hm.
  - by exists mp, hm.
  - rewrite fmap_cons. change (App.run ?w (?e :: ?l)) with (App.run (App.step w e) l).
    apply IH.
Qed.

(** C6: in PIPE mode with no source locked, a tap on node [A] followed
    (after any pointer movement) by a tap on a different node [B] adds
    exactly one edge, from [A] to [B] with the selected default size and
    the default length 10, and clears the lock; a second tap on [A]
    itself adds no edge and clears the lock; a tap on the background
    clears any lock and leaves the graph as it is. *)
Theorem pipe_two_tap_protocol (w : App.World) (A B : string)
    (cA cB : Point) (nowA nowB : Z) (randA randB : string) (moves : list Point) :
  App.selectedTool (App.app w) = pipe →
  Canvas.tapPipingSource (App.canvas w) = None →
  A ∈ node_id <$> App.nodes (App.app w) →
  B ∈ node_id <$> App.nodes (App.app w) →
  A ≠ B → A ≠ EmptyString →
  let between := App.InteractionMove <$> moves in
  let connected :=
    App.run w (App.tapNode cA nowA randA A ++ between ++ App.tapNode cB nowB randB B) in
  let cancelled :=
    App.run w (App.tapNode cA nowA randA A ++ between ++ App.tapNode cB nowB randB A) in
  (App.edges (App.app connected) =
     App.edges (App.app w) ++ [mkEdge randB A B (App.selectedPipeSize (App.app w)) 10]
   ∧ App.nodes (App.app connected) = App.nodes (App.app w)
   ∧ Canvas.tapPipingSource (App.canvas connected) = None)
  ∧ (App.edges (App.app cancelled) = App.edges (App.app w)
     ∧ App.nodes (App.app cancelled) = App.nodes (App.app w)
     ∧ Canvas.tapPipingSource (App.canvas cancelled) = None)
  ∧ ∀ w0 : App.World,
      Canvas.tapPipingSource (App.canvas (App.run w0 App.tapBackground)) = None
      ∧ App.edges (App.app (App.run w0 App.tapBackground)) = App.edges (App.app w0)
      ∧ App.nodes (App.app (App.run w0 App.tapBackground)) = App.nodes (App.app w0).
Proof.
  intros Htool Hfree HA HB Hdiff Hne between connected cancelled.
  assert (∃ mp hm,
    App.run w (App.tapNode cA nowA randA A ++ between) =
    App.mkWorld (App.setSelectedId None (App.app w))
      (Canvas.mkState None None mp cA hm (Some A)
         (Canvas.interactionState (App.canvas w)))) as (mp & hm & Hlocked).
  { rewrite run_app, tap_locks_source by (done || by rewrite Hfree).
    apply moves_keep_lock. }
  split; [|split].
  - subst connected. rewrite app_assoc, run_app, Hlocked.
    by rewrite (tap_completes_connection _ cB nowB randB A B).
  - subst cancelled. rewrite app_assoc, run_app, Hlocked.
    by rewrite (tap_unlocks_source _ cB nowB randB A).
  - intros [[ns es tool size sel mob sme] [drag pf mp0 ds hm0 tap ist]].
    unfold App.run, App.tapBackground, App.step, App.deliver. simpl.
    by destruct tool.
Qed.

Lemma pipe_two_tap_protocol_witness :
  (let connected :=
     App.run demo_world
       (App.tapNode (mkPoint 500 300) 1000 "x1" "w"
        ++ [] ++ App.tapNode (mkPoint 500 700) 2000 "x2" "c") in
   App.edges (App.app connected) =
     demo_edges ++ [mkEdge "x2" "w" "c" (PipeSize_value HALF) 10]
   ∧ Canvas.tapPipingSource (App.canvas connected) = None)
  ∧ (let cancelled :=
       App.run demo_world
         (App.tapNode (mkPoint 500 300) 1000 "x1" "w"
          ++ [] ++ App.tapNode (mkPoint 500 700) 2000 "x2" "w") in
     App.edges (App.app cancelled) = demo_edges
     ∧ Canvas.tapPipingSource (App.canvas cancelled) = None).
Proof.
  destruct (pipe_two_tap_protocol demo_world "w" "c"
              (mkPoint 500 300) (mkPoint 500 700) 1000 2000 "x1" "x2" [])
    as ((He & _ & Hl) & (He' & _ & Hl') & _);
    [reflexivity|reflexivity|compute_done|compute_done|done|done|].
  split; split; assumption.
Defined.

(** The same two gestures, by running the state machine. *)
Example tap_tap_adds_one_edge :
  edge_id <$> App.edges (App.app (App.run demo_world
    (App.tapNode (mkPoint 500 300) 1000 "x1" "w"
     ++ App.tapNode (mkPoint 500 700) 2000 "x2" "c")))
  = ["e1"; "e2"; "e3"; "x2"].
Proof. reflexivity. Qed.

Example background_clears_lock :
  Canvas.tapPipingSource (App.canvas (App.run demo_world
    (App.tapNode (mkPoint 500 300) 1000 "x1" "w" ++ App.tapBackground)))
  = None.
Proof. reflexivity. Qed.

(** ** The audit service *)

(** No build of the service rejects: a failed call is turned into text. *)
Lemma auditSystem_never_rejects (generateContent : Settled (option string)) :
  (∃ r, GeminiService.auditSystem generateContent = Fulfilled r)
  ∧ (∃ r, Part000.auditSystem generateContent = Fulfilled r)
  ∧ (∃ r, Index.auditSystem generateContent = Fulfilled r).
Proof. destruct generateContent; repeat split; by eexists. Qed.

(** In part_000 and in src/index.tsx the fallback is the report of two
    titled sections with five bullets each. *)
Lemma two_section_fallbacks :
  Part000.auditSystem Rejected = Fulfilled (Some Part000.fallback)
  ∧ Index.auditSystem Rejected = Fulfilled (Some App.fallback)
  ∧ section_title <$> report_sections Part000.fallback = section_titles
  ∧ section_title <$> report_sections App.fallback = section_titles
  ∧ length <$> (section_bullets <$> report_sections Part000.fallback) = [5; 5]%nat
  ∧ length <$> (section_bullets <$> report_sections App.fallback) = [5; 5]%nat.
Proof. repeat split; vm_compute; reflexivity. Qed.

Lemma part002_audit_fallback :
  Part002.runAudit Rejected = Some Part000.fallback.
Proof. reflexivity. Qed.

(** C9, on src/services/geminiService.ts: when the call fails the service
    does not reject, but the text it returns is one sentence; the report
    view finds a single block in it, with neither of the two section
    titles and no bullet. *)
Theorem geminiService_fallback_is_one_sentence :
  GeminiService.auditSystem Rejected
    = Fulfilled (Some "Failed to perform AI audit. Please check your connections and try again.")
  ∧ App.runAudit Rejected
    = Some "Failed to perform AI audit. Please check your connections and try again."
  ∧ report_sections GeminiService.fallback
    = ["Failed to perform AI audit. Please check your connections and try again."]
  ∧ section_title <$> report_sections GeminiService.fallback ≠ section_titles
  ∧ section_bullets <$> report_sections GeminiService.fallback = [[]].
Proof. repeat split; try (vm_compute; reflexivity). vm_compute. discriminate. Qed.

(** ** Further facts on the aggregation *)

Lemma total_flows_of (sub : string → option Z) (outs : list AppEdge) flows :
  Forall2 (λ out x, sub (edge_id out) = Some x) outs flows →
  flows = (λ out, default 0 (sub (edge_id out))) <$> outs.
Proof.
  induction 1 as [|out x outs flows Hx _ IH]; [done|].
  rewrite fmap_cons, Hx. simpl. by f_equal.
Qed.

(** On a graph of the data model the flow is a number, and it satisfies
    the equation of the specification. *)
Lemma flow_of_equation nodes edges (e : AppEdge) :
  unique_edge_ids edges → acyclic edges → e ∈ edges →
  flow_of nodes edges e =
  match find_node nodes (edge_to e) with
  | None => 0
  | Some target =>
      (if decide (node_type target = APPLIANCE) then node_btu target else 0)
      + total (flow_of nodes edges <$> outgoing edges (node_id target))
  end.
Proof.
  intros Huniq Hacyc Hin. unfold flow_of.
  destruct (getFlow_enough_fuel nodes edges Huniq (edge_id e) Hacyc) as [v Hv].
  rewrite Hv. simpl. unfold enough_fuel in Hv.
  rewrite getFlow_unfold, (find_edge_unique edges e Huniq Hin) in Hv.
  destruct (find_node nodes (edge_to e)) as [target|]; [|congruence].
  apply add_flows_Some in Hv as (flows & HF & ->).
  assert (Forall2 (λ out x, getFlow nodes edges (enough_fuel edges) (edge_id out) = Some x)
            (outgoing edges (node_id target)) flows) as HF'.
  { eapply Forall2_impl; [exact HF|]. intros out x Hx. simpl in Hx.
    eapply getFlow_fuel_mono; [|exact Hx]. unfold enough_fuel. lia. }
  rewrite (total_flows_of _ _ _ HF').
  by destruct (decide (node_type target = APPLIANCE)).
Qed.

(** Unique identifiers matter too: [getFlow] resolves a pipe by its
    identifier, so two pipes in a row that share one send it back to the
    first of them. *)
Lemma shared_id_edges_acyclic : acyclic shared_id_edges.
Proof.
  apply (acyclic_of_rank
           (λ id, if bool_decide (id = "x") then 0 else if bool_decide (id = "y") then 1 else 2)%nat).
  intros e He. unfold shared_id_edges in He.
  repeat (apply elem_of_cons in He as [->|He]; [compute; lia|]).
  by apply elem_of_nil in He.
Qed.

Lemma getFlow_shared_id_diverges fuel :
  getFlow shared_id_nodes shared_id_edges fuel "p" = None.
Proof.
  induction fuel as [|fuel IH]; [done|].
  rewrite getFlow_unfold. simpl.
  change (outgoing shared_id_edges "y")
    with [mkEdge "p" "y" "z" (PipeSize_value HALF) 10].
  rewrite add_flows_cons. simpl. by rewrite IH.
Qed.

(** ** The single-file build, src/index.tsx *)

Lemma add_flows_ext (sub sub' : string → option Z) init outs :
  (∀ id, sub id = sub' id) → add_flows sub init outs = add_flows sub' init outs.
Proof.
  intros Hext. revert init. induction outs as [|out outs IH]; intros init; [done|].
  rewrite !add_flows_cons, Hext. destruct (sub' (edge_id out)); [apply IH|done].
Qed.

Lemma Index_getFlow_unfold nodes edges fuel edgeId :
  Index.getFlow nodes edges (S fuel) edgeId =
  match find_edge edges edgeId with
  | None => Some 0
  | Some edge =>
    match find_node nodes (edge_to edge) with
    | None => Some 0
    | Some target =>
      add_flows (Index.getFlow nodes edges fuel) (node_btu target)
                (outgoing edges (node_id target))
    end
  end.
Proof. reflexivity. Qed.

(** Its aggregator adds the btu of the target whatever its type; it
    agrees with the one of the App builds on every graph whose
    non-appliance nodes carry no demand. *)
Lemma Index_getFlow_agrees nodes edges :
  (∀ n, n ∈ nodes → node_type n ≠ APPLIANCE → node_btu n = 0) →
  ∀ fuel edgeId,
    Index.getFlow nodes edges fuel edgeId = getFlow nodes edges fuel edgeId.
Proof.
  intros Hzero. induction fuel as [|fuel IH]; intros edgeId; [done|].
  rewrite Index_getFlow_unfold, getFlow_unfold.
  destruct (find_edge edges edgeId) as [edge|]; [|done].
  destruct (find_node nodes (edge_to edge)) as [target|] eqn:Hnode; [|done].
  apply find_node_Some in Hnode as [Hin _].
  rewrite (add_flows_ext _ _ _ _ IH).
  destruct (decide (node_type target = APPLIANCE)) as [|Hty]; [done|].
  by rewrite (Hzero target Hin Hty).
Qed.

Example Index_counts_stray_btu :
  Index.getFlow stray_btu_nodes stray_btu_edges 3 "e1" = Some 45000
  ∧ getFlow stray_btu_nodes stray_btu_edges 3 "e1" = Some 40000.
Proof. split; reflexivity. Qed.

(** Its validator compares with the fixed capacity of the table row, with
    the same non-strict comparison, and has no entry for the length. *)
Example Index_validate_demo :
  match Index.validate demo_nodes demo_edges 3 with
  | Index.Returns results => (results !! "e1", results !! "e2")
  | _ => (None, None)
  end = (Some (Index.mkVerdict false 105000), Some (Index.mkVerdict true 40000)).
Proof. reflexivity. Qed.

Example Index_validate_unknown_size :
  Index.validate demo_nodes [mkEdge "e1" "m" "j" "2" 10] 3 = Index.Throws.
Proof. reflexivity. Qed.


(** ** The aggregator and the validator of src/index.tsx *)

Lemma find_related {A} (R : A → A → Prop) (p q : A → bool) l l' :
  Forall2 R l l' → (∀ x y, R x y → p x = q y) →
  option_Forall2 R (List.find p l) (List.find q l').
Proof.
  intros HF Hpq. induction HF as [|x y l l' Hxy _ IH]; simpl; [constructor|].
  rewrite (Hpq x y Hxy). destruct (q y); [by constructor|exact IH].
Qed.

Lemma Index_getFlow_as_appliances nodes edges fuel (edgeId : string) :
  Index.getFlow nodes edges fuel edgeId
  = getFlow (as_appliance <$> nodes) edges fuel edgeId.
Proof.
  revert edgeId. induction fuel as [|fuel IH]; intros edgeId; [done|].
  rewrite Index_getFlow_unfold, getFlow_unfold.
  destruct (find_edge edges edgeId) as [edge|]; [|done].
  assert (option_Forall2 (λ n n', n' = as_appliance n)
            (find_node nodes (edge_to edge))
            (find_node (as_appliance <$> nodes) (edge_to edge))) as Hfn.
  { apply find_related; [|by intros x y ->].
    apply Forall2_fmap_r, Forall_Forall2_diag, Forall_forall. by intros n _. }
  destruct Hfn as [n n' ->|]; [|done]. simpl.
  apply add_flows_ext, IH.
Qed.

Lemma Index_getFlow_enough_fuel nodes edges (edgeId : string) :
  unique_edge_ids edges → acyclic edges →
  is_Some (Index.getFlow nodes edges (enough_fuel edges) edgeId).
Proof.
  intros Huniq Hacyc. rewrite Index_getFlow_as_appliances. by apply getFlow_enough_fuel.
Qed.

Lemma index_validate_from_Throws nodes edges fuel l :
  index_validate_from nodes edges fuel Index.Throws l = Index.Throws.
Proof. induction l as [|e l IH]; [done|exact IH]. Qed.

Lemma index_validate_from_cons nodes edges fuel acc e l flow :
  Index.getFlow nodes edges fuel (edge_id e) = Some flow →
  index_validate_from nodes edges fuel (Index.Returns acc) (e :: l)
  = match property_of Index.PIPE_SPECS (edge_size e) with
    | Undefined => Index.Throws
    | _ =>
      index_validate_from nodes edges fuel
        (Index.Returns (<[edge_id e := index_verdict e flow]> acc)) l
    end.
Proof.
  intros Hflow. unfold index_validate_from, index_verdict. simpl. rewrite Hflow.
  destruct (property_of Index.PIPE_SPECS (edge_size e)); [done|done|].
  apply index_validate_from_Throws.
Qed.

Lemma index_validate_from_returns nodes edges fuel acc l :
  (∀ e, e ∈ l → is_Some (Index.getFlow nodes edges fuel (edge_id e))) →
  (∀ e, e ∈ l → property_of Index.PIPE_SPECS (edge_size e) ≠ Undefined) →
  NoDup (edge_id <$> l) →
  ∃ results,
    index_validate_from nodes edges fuel (Index.Returns acc) l = Index.Returns results
    ∧ (∀ k, k ∉ edge_id <$> l → results !! k = acc !! k)
    ∧ (∀ e, e ∈ l →
         ∃ flow,
           Index.getFlow nodes edges fuel (edge_id e) = Some flow
           ∧ results !! edge_id e = Some (index_verdict e flow)).
Proof.
  revert acc. induction l as [|x l IH]; intros acc Hflows Hrows Hnd.
  - exists acc. split; [done|]. split; [done|]. intros e He. by apply elem_of_nil in He.
  - rewrite fmap_cons in Hnd. apply NoDup_cons in Hnd as [Hx Hnd].
    destruct (Hflows x) as [flow Hflow]; [by left|].
    assert (property_of Index.PIPE_SPECS (edge_size x) ≠ Undefined) as Hrow
      by (apply Hrows; by left).
    rewrite (index_validate_from_cons _ _ _ _ _ _ _ Hflow).
    destruct (IH (<[edge_id x := index_verdict x flow]> acc))
      as (results & Hrun & Hother & Hentry); [by intros e He; apply Hflows; right
                                             |by intros e He; apply Hrows; right|done|].
    exists results. split.
    { by destruct (property_of Index.PIPE_SPECS (edge_size x)). }
    split.
    + intros k Hk. rewrite fmap_cons, not_elem_of_cons in Hk. destruct Hk as [Hne Hk].
      rewrite (Hother k Hk). by apply lookup_insert_ne.
    + intros e He. apply elem_of_cons in He as [->|He]; [|by apply Hentry].
      exists flow. split; [done|].
      rewrite (Hother _ Hx). by apply lookup_insert_eq.
Qed.

Lemma index_validate_from_throws nodes edges fuel acc l (e : AppEdge) :
  (∀ e, e ∈ l → is_Some (Index.getFlow nodes edges fuel (edge_id e))) →
  e ∈ l → property_of Index.PIPE_SPECS (edge_size e) = Undefined →
  index_validate_from nodes edges fuel (Index.Returns acc) l = Index.Throws.
Proof.
  revert acc. induction l as [|x l IH]; intros acc Hflows He Hrow.
  - by apply elem_of_nil in He.
  - destruct (Hflows x) as [flow Hflow]; [by left|].
    rewrite (index_validate_from_cons _ _ _ _ _ _ _ Hflow).
    apply elem_of_cons in He as [->|He]; [by rewrite Hrow|].
    assert (index_validate_from nodes edges fuel
              (Index.Returns (<[edge_id x := index_verdict x flow]> acc)) l
            = Index.Throws) as Hrest.
    { apply IH; [|done|done]. intros e' He'. apply Hflows. by right. }
    by destruct (property_of Index.PIPE_SPECS (edge_size x)).
Qed.

Lemma Index_getFlow_returns_as_appliances nodes edges (edgeId : string) (v : Z) :
  Index.getFlow_returns nodes edges edgeId v
  ↔ getFlow_returns (as_appliance <$> nodes) edges edgeId v.
Proof.
  unfold Index.getFlow_returns, getFlow_returns.
  split; intros [fuel H]; exists fuel.
  - by rewrite <- Index_getFlow_as_appliances.
  - by rewrite Index_getFlow_as_appliances.
Qed.

Lemma Index_getFlow_returns_functional nodes edges (edgeId : string) (v v' : Z) :
  Index.getFlow_returns nodes edges edgeId v →
  Index.getFlow_returns nodes edges edgeId v' → v = v'.
Proof.
  rewrite !Index_getFlow_returns_as_appliances. apply getFlow_returns_functional.
Qed.

Lemma find_node_as_appliances nodes (id : string) :
  find_node (as_appliance <$> nodes) id = as_appliance <$> find_node nodes id.
Proof.
  unfold find_node. induction nodes as [|n l IH]; [done|].
  rewrite fmap_cons. simpl.
  destruct (bool_decide (node_id n = id)); [done|exact IH].
Qed.

(** The equation of the aggregator of src/index.tsx: every node
    contributes its btu. *)
Lemma Index_getFlow_equation nodes edges (e : AppEdge) :
  unique_edge_ids edges → e ∈ edges →
  flow_equation (Index.getFlow_returns nodes edges) node_btu nodes edges e.
Proof.
  intros Huniq Hin.
  pose proof (getFlow_equation (as_appliance <$> nodes) edges e Huniq Hin) as H.
  unfold flow_equation in *. rewrite find_node_as_appliances in H.
  destruct (find_node nodes (edge_to e)) as [target|]; simpl in H.
  - intros v. rewrite Index_getFlow_returns_as_appliances, H.
    split; intros (flows & HF & ->); exists flows; (split; [|done]);
      (eapply Forall2_impl; [exact HF|]); intros E x HE;
      by apply Index_getFlow_returns_as_appliances.
  - intros v. by rewrite Index_getFlow_returns_as_appliances.
Qed.

(** C1, as amended: in every build the flow of an edge is 0 when
    [edge.to] names no node, and otherwise the demand of that node plus
    the sum of the flows of all edges that leave the node, defined
    exactly when those flows are.  In src/App.tsx (and part_002) the
    demand of the node is its btu when it is an APPLIANCE and 0 for the
    other types; in src/index.tsx it is the btu of the node whatever its
    type.  The two agree on a graph whose other nodes carry btu 0. *)
Theorem flow_is_downstream_demand nodes edges (e : AppEdge) :
  unique_edge_ids edges → e ∈ edges →
  flow_equation (getFlow_returns nodes edges) appliance_demand nodes edges e
  ∧ flow_equation (Index.getFlow_returns nodes edges) node_btu nodes edges e
  ∧ ((∀ n, n ∈ nodes → node_type n ≠ APPLIANCE → node_btu n = 0) →
     ∀ v, Index.getFlow_returns nodes edges (edge_id e) v
          ↔ getFlow_returns nodes edges (edge_id e) v).
Proof.
  intros Huniq Hin. split; [by apply getFlow_equation|].
  split; [by apply Index_getFlow_equation|].
  intros Hzero v. unfold Index.getFlow_returns, getFlow_returns.
  split; intros [fuel H]; exists fuel.
  - by rewrite <- (Index_getFlow_agrees nodes edges Hzero).
  - by rewrite (Index_getFlow_agrees nodes edges Hzero).
Qed.

Lemma stray_btu_edges_unique : unique_edge_ids stray_btu_edges.
Proof. unfold unique_edge_ids. compute_done. Qed.

Lemma flow_is_downstream_demand_witness :
  getFlow_returns stray_btu_nodes stray_btu_edges "e1" 40000
  ∧ Index.getFlow_returns stray_btu_nodes stray_btu_edges "e1" 45000.
Proof.
  destruct (flow_is_downstream_demand stray_btu_nodes stray_btu_edges
              (mkEdge "e1" "m" "j" (PipeSize_value HALF) 10)
              stray_btu_edges_unique ltac:(by left)) as (Happ & Hidx & _).
  unfold flow_equation in Happ, Hidx. simpl in Happ, Hidx. split.
  - apply Happ. exists [40000]. split; [|reflexivity].
    repeat constructor; by exists 2%nat.
  - apply Hidx. exists [40000]. split; [|reflexivity].
    repeat constructor; by exists 2%nat.
Defined.

(** C1 as stated fails on src/index.tsx: between a meter and a water
    heater of 40000 sits a junction that carries btu 5000; the claim
    gives the pipe into the junction the flow 0 + 40000, the aggregator
    of src/index.tsx returns 45000. *)
Lemma Index_flow_counts_every_node :
  ¬ (∀ nodes edges (e : AppEdge),
       unique_edge_ids edges → e ∈ edges →
       flow_equation (Index.getFlow_returns nodes edges) appliance_demand nodes edges e).
Proof.
  intros H.
  specialize (H stray_btu_nodes stray_btu_edges
                (mkEdge "e1" "m" "j" (PipeSize_value HALF) 10)
                stray_btu_edges_unique ltac:(by left)).
  unfold flow_equation in H. simpl in H.
  destruct (H 45000) as [Hto _].
  destruct Hto as (flows & HF & Hv); [by exists 3%nat|].
  apply Forall2_cons_inv_l in HF as (y & rest & Hy & Hrest & ->).
  apply Forall2_nil_inv_l in Hrest as ->.
  assert (y = 40000) as ->.
  { apply (Index_getFlow_returns_functional _ _ _ _ _ Hy). by exists 2%nat. }
  vm_compute in Hv. discriminate.
Qed.

Lemma index_verdicts_sound_any nodes edges :
  unique_edge_ids edges → acyclic edges →
  (∀ e, e ∈ edges → is_Some (Index.PIPE_SPECS !! edge_size e)) →
  index_verdicts_sound nodes edges.
Proof.
  intros Huniq Hacyc Hrows.
  destruct (index_validate_from_returns nodes edges (enough_fuel edges) ∅ edges)
    as (results & Hrun & _ & Hentry); [| |exact Huniq|].
  { intros e _. by apply Index_getFlow_enough_fuel. }
  { intros e He. destruct (Hrows e He) as [spec Hspec].
    by rewrite (property_of_row _ _ _ Hspec). }
  exists results. split; [exact Hrun|]. intros e He.
  destruct (Hentry e He) as (fl & Hfl & Hres).
  destruct (Hrows e He) as [spec Hspec].
  unfold index_verdict in Hres. rewrite (property_of_row _ _ _ Hspec) in Hres.
  eexists _, spec. split; [exact Hres|]. simpl.
  split; [done|]. split; [by eexists|]. split; [done|].
  intros ->. by apply bool_decide_eq_true.
Qed.

(** C3, as amended: on every graph of the data model (unique edge
    identifiers, no cycle) the validation pass returns, and the verdict
    of each edge has the flow of the Demand Aggregator and
    [isValid = (flow <= capacity)], so a flow equal to the capacity is
    valid.  In src/App.tsx and part_002 the capacity is that of the
    Capacity Model at the edge's size and length (for part_002 at any
    pressure drop) and is stored in the verdict.  In src/index.tsx, for
    pipes of the sizes of its table, the capacity is the capacity column
    of the row of the edge's size, whatever the length. *)
Theorem validator_verdict T dp nodes edges :
  unique_edge_ids edges → acyclic edges →
  verdicts_sound (Part002.calculateCapacity T dp) nodes edges
  ∧ verdicts_sound (App.calculateCapacity T) nodes edges
  ∧ ((∀ e, e ∈ edges → is_Some (Index.PIPE_SPECS !! edge_size e)) →
     index_verdicts_sound nodes edges).
Proof.
  intros Huniq Hacyc. split; [by apply verdicts_sound_any|].
  split; [by apply verdicts_sound_any|]. by apply index_verdicts_sound_any.
Qed.

Lemma validator_verdict_witness :
  verdicts_sound (Part002.calculateCapacity Index.PIPE_SPECS 0.5) demo_nodes demo_edges
  ∧ verdicts_sound (App.calculateCapacity Index.PIPE_SPECS) demo_nodes demo_edges
  ∧ index_verdicts_sound demo_nodes demo_edges.
Proof.
  destruct (validator_verdict Index.PIPE_SPECS 0.5 demo_nodes demo_edges
              demo_edges_unique demo_edges_acyclic) as (H2 & HA & HI).
  split; [exact H2|]. split; [exact HA|]. apply HI.
  intros e He. unfold demo_edges in He.
  repeat (apply elem_of_cons in He as [->|He]; [by eexists|]).
  by apply elem_of_nil in He.
Defined.

Lemma long_run_edges_unique : unique_edge_ids long_run_edges.
Proof. unfold unique_edge_ids. compute_done. Qed.

Lemma long_run_edges_acyclic : acyclic long_run_edges.
Proof.
  apply (acyclic_of_rank demo_rank). intros e He. unfold long_run_edges in He.
  repeat (apply elem_of_cons in He as [->|He]; [compute; lia|]).
  by apply elem_of_nil in He.
Qed.

(** The sizing formula rates 100 feet of half-inch pipe, at a pressure
    drop of 0.5, below 40000. *)
Lemma half_inch_at_100_feet :
  sizing_formula 0.5 (mkSpec (PipeSize_value HALF) 0.00000410606 2.1590935 77000) 100
  < 40000.
Proof.
  unfold sizing_formula. simpl spec_coeff. simpl spec_exp.
  set (b := (0.5 / 100 / 0.00000410606)%R). set (y := (1 / 2.1590935)%R).
  assert (Rpower b y < 40)%R as Hlt.
  { assert (0 < b < Rpower 40 2.1590935)%R as Hb.
    { split; [unfold b; lra|].
      apply Rlt_le_trans with (Rpower 40 2).
      - replace 2%R with (1 + 1)%R by lra.
        rewrite Rpower_plus, Rpower_1 by lra. unfold b. lra.
      - apply Rle_Rpower; lra. }
    apply Rlt_le_trans with (Rpower (Rpower 40 2.1590935) y).
    - apply Rlt_Rpower_l; [unfold y; lra|exact Hb].
    - rewrite Rpower_mult. replace (2.1590935 * y)%R with 1%R by (unfold y; field; lra).
      rewrite Rpower_1; lra. }
  destruct (Zfloor_bound (Rpower b y)) as [Hfl _].
  assert (Zfloor (Rpower b y) < 40); [|lia].
  apply lt_IZR. lra.
Qed.

(** C3 as stated fails on src/index.tsx: a water heater of 40000 at
    the end of 100 feet of half-inch pipe is within the capacity column
    (77000) and marked valid, while the Capacity Model at that length
    rates the pipe below 40000. *)
Lemma Index_validate_ignores_length :
  ¬ (∀ (designPressureDrop : R) nodes edges (e : AppEdge) (spec : PipeSpec) results,
       (0 < designPressureDrop)%R → unique_edge_ids edges → acyclic edges →
       e ∈ edges → Index.PIPE_SPECS !! edge_size e = Some spec →
       Index.validate nodes edges (enough_fuel edges) = Index.Returns results →
       ∃ v, results !! edge_id e = Some v
            ∧ Index.isValid v
              = bool_decide (Index.flow v
                             ≤ sizing_formula designPressureDrop spec (edge_length e))).
Proof.
  intros H.
  edestruct (H 0.5%R long_run_nodes long_run_edges
               (mkEdge "e1" "m" "w" (PipeSize_value HALF) 100))
    as (v & Hv & Hvalid);
    [lra|exact long_run_edges_unique|exact long_run_edges_acyclic|by left
    |exact (Index_specs_lookup HALF)|reflexivity|].
  vm_compute in Hv. injection Hv as <-. simpl in Hvalid.
  symmetry in Hvalid. apply bool_decide_eq_true in Hvalid.
  pose proof half_inch_at_100_feet as Hrate.
  unfold sizing_formula in Hvalid, Hrate. simpl in Hvalid, Hrate. lia.
Qed.

(** * Further properties of the code *)

(** ** Capacity Model: range, pressure and reach *)

Lemma base_positive (dp length coeff : R) :
  (0 < dp)%R → (0 < length)%R → (0 < coeff)%R → (0 < dp / length / coeff)%R.
Proof. intros. apply Rdiv_lt_0_compat; [apply Rdiv_lt_0_compat|]; lra. Qed.

Lemma base_reaches_one (dp length coeff : R) :
  (0 < dp)%R → (0 < length)%R → (0 < coeff)%R →
  (1 <= dp / length / coeff)%R ↔ (length <= dp / coeff)%R.
Proof.
  intros Hdp Hlen Hc. split; intros H.
  - apply (Rmult_le_reg_r coeff); [done|].
    replace (dp / coeff * coeff)%R with dp by (field; lra).
    apply (Rmult_le_compat_r (length * coeff)) in H; [|nra].
    replace (dp / length / coeff * (length * coeff))%R with dp in H by (field; lra).
    lra.
  - apply (Rmult_le_reg_r (length * coeff)); [nra|].
    replace (dp / length / coeff * (length * coeff))%R with dp by (field; lra).
    apply (Rmult_le_compat_r coeff) in H; [|lra].
    replace (dp / coeff * coeff)%R with dp in H by (field; lra).
    lra.
Qed.

Lemma property_of_row_or_nothing T size :
  row_or_nothing T size →
  property_of T size
  = match T !! size with Some spec => Own spec | None => Undefined end.
Proof.
  intros [[spec Hrow]|Hout]; unfold property_of.
  - by rewrite Hrow.
  - destruct (T !! size); [done|]. by rewrite bool_decide_eq_false_2.
Qed.



(** A larger design pressure drop never lowers a capacity. *)
Theorem capacity_grows_with_pressure T (dp1 dp2 : R) (size : string) (length : R) :
  positive_specs T → (0 < dp1 <= dp2)%R → row_or_nothing T size →
  number_le (Part002.calculateCapacity T dp1 size length)
            (Part002.calculateCapacity T dp2 size length).
Proof.
  intros Hpos [Hdp1 Hdp] Hsize. unfold Part002.calculateCapacity.
  rewrite (property_of_row_or_nothing _ _ Hsize).
  destruct (T !! size) as [spec|] eqn:Hrow; [|done].
  destruct (Rle_dec length 0) as [|Hlen]; [done|].
  destruct (Hpos _ _ Hrow) as [Hc He]. simpl.
  apply Z.mul_le_mono_nonneg_r; [lia|]. apply Zfloor_le.
  apply Rle_Rpower_l.
  - left. apply Rdiv_lt_0_compat; lra.
  - split; [apply base_positive; lra|].
    apply Rmult_le_compat_r; [left; by apply Rinv_0_lt_compat|].
    apply Rmult_le_compat_r; [left; apply Rinv_0_lt_compat; lra|done].
Qed.

Lemma capacity_grows_with_pressure_witness :
  number_le (Part002.calculateCapacity Index.PIPE_SPECS 0.5 (PipeSize_value HALF) 10)
            (Part002.calculateCapacity Index.PIPE_SPECS 1 (PipeSize_value HALF) 10).
Proof.
  apply (capacity_grows_with_pressure Index.PIPE_SPECS 0.5 1 (PipeSize_value HALF) 10).
  - exact Index_specs_positive.
  - lra.
  - left. apply (Index_specs_complete HALF).
Defined.

(** How far a pipe reaches: a pipe shorter than [pressureDrop / coeff]
    by the margin [clear_of_threshold] is rated at 1000 or more, and a
    pipe longer than it by that margin is rated at 0.  (At the length
    [pressureDrop / coeff] itself the rounding of the division decides,
    which the reals of this model do not follow.) *)
Theorem capacity_reach T dp (size : string) (spec : PipeSpec) (length : R) :
  T !! size = Some spec → (0 < spec_coeff spec)%R → (0 < spec_exp spec)%R →
  (0 < dp)%R → (0 < length)%R →
  ((length * clear_of_threshold <= dp / spec_coeff spec)%R →
     ∃ c, Part002.calculateCapacity T dp size length = Num c ∧ 1000 ≤ c)
  ∧ ((dp / spec_coeff spec * clear_of_threshold <= length)%R →
     Part002.calculateCapacity T dp size length = 0).
Proof.
  intros Hrow Hc He Hdp Hlen. rewrite (capacity_of_row T dp size spec) by done.
  unfold sizing_formula, clear_of_threshold.
  pose proof (base_positive dp length _ Hdp Hlen Hc) as Hbase.
  pose proof (base_reaches_one dp length _ Hdp Hlen Hc) as Hone.
  assert (0 < 1 / spec_exp spec)%R as Hy by (apply Rdiv_lt_0_compat; lra).
  assert (0 < dp / spec_coeff spec)%R as Hreach by (apply Rdiv_lt_0_compat; lra).
  split.
  - intros Hnear. assert (1 <= dp / length / spec_coeff spec)%R as Hge.
    { apply Hone. lra. }
    eexists. split; [reflexivity|].
    assert (1 ≤ Zfloor (Rpower (dp / length / spec_coeff spec) (1 / spec_exp spec))) as Hfl.
    { apply Zfloor_lub. apply Rle_trans with (Rpower 1 (1 / spec_exp spec)).
      - rewrite Rpower_one. lra.
      - apply Rle_Rpower_l; lra. }
    lia.
  - intros Hfar. rewrite Zfloor_Rpower_below_one; [done| |done].
    split; [done|]. apply Rnot_le_lt. intros Hge. apply Hone in Hge. lra.
Qed.

Lemma capacity_reach_witness :
  ∃ c, Part002.calculateCapacity Index.PIPE_SPECS 0.5 (PipeSize_value HALF) 10 = Num c
       ∧ 1000 ≤ c.
Proof.
  destruct (capacity_reach Index.PIPE_SPECS 0.5 (PipeSize_value HALF)
              (mkSpec (PipeSize_value HALF) 0.00000410606 2.1590935 77000) 10)
    as [H _].
  - apply (Index_specs_lookup HALF).
  - simpl. lra.
  - simpl. lra.
  - lra.
  - lra.
  - apply H. unfold clear_of_threshold. simpl. lra.
Defined.

(** ** Demand Aggregator: sign and what it reads *)

Lemma total_nonneg (flows : list Z) : Forall (λ x, 0 ≤ x) flows → 0 ≤ total flows.
Proof. induction 1; simpl; lia. Qed.

(** When no appliance has a negative demand, no flow is negative. *)
Theorem flow_nonnegative nodes edges fuel (edgeId : string) (v : Z) :
  (∀ n, n ∈ nodes → node_type n = APPLIANCE → 0 ≤ node_btu n) →
  getFlow nodes edges fuel edgeId = Some v → 0 ≤ v.
Proof.
  intros Hbtu. revert edgeId v. induction fuel as [|fuel IH]; intros edgeId v; [done|].
  rewrite getFlow_unfold.
  destruct (find_edge edges edgeId) as [edge|]; [|intros [= <-]; lia].
  destruct (find_node nodes (edge_to edge)) as [target|] eqn:Hnode; [|intros [= <-]; lia].
  apply find_node_Some in Hnode as [Hin _].
  intros (flows & HF & ->)%add_flows_Some.
  assert (0 ≤ total flows) as Htot.
  { apply total_nonneg. clear -HF IH.
    induction HF as [|out x outs flows Hx _ IHF]; constructor; [by eapply IH|done]. }
  destruct (decide (node_type target = APPLIANCE)) as [Hty|]; [|lia].
  specialize (Hbtu target Hin Hty). lia.
Qed.

Lemma flow_nonnegative_witness : 0 ≤ 105000.
Proof.
  apply (flow_nonnegative demo_nodes demo_edges 3 "e1" 105000); [|reflexivity].
  intros n Hn _. unfold demo_nodes in Hn.
  repeat (apply elem_of_cons in Hn as [->|Hn]; [simpl; lia|]).
  by apply elem_of_nil in Hn.
Defined.

Lemma filter_related {A} (R : A → A → Prop) (P Q : A → Prop)
    `{!∀ x, Decision (P x)} `{!∀ x, Decision (Q x)} l l' :
  Forall2 R l l' → (∀ x y, R x y → P x ↔ Q y) →
  Forall2 R (filter P l) (filter Q l').
Proof.
  intros HF HPQ. induction HF as [|x y l l' Hxy _ IH]; [constructor|].
  rewrite !filter_cons. specialize (HPQ x y Hxy).
  destruct (decide (P x)), (decide (Q y)); try tauto. by constructor.
Qed.

Lemma add_flows_related sub init outs outs' :
  Forall2 same_ends outs outs' →
  add_flows sub init outs = add_flows sub init outs'.
Proof.
  intros HF. revert init. induction HF as [|e e' l l' (Hid & _) _ IH]; intros init; [done|].
  rewrite !add_flows_cons, Hid. destruct (sub (edge_id e')); [apply IH|done].
Qed.

(** The aggregation on nodes and pipes it cannot tell apart. *)
Lemma getFlow_related nodes nodes' edges edges' fuel (edgeId : string) :
  Forall2 same_demand nodes nodes' → Forall2 same_ends edges edges' →
  getFlow nodes' edges' fuel edgeId = getFlow nodes edges fuel edgeId.
Proof.
  intros Hn He. revert edgeId. induction fuel as [|fuel IH]; intros edgeId; [done|].
  rewrite !getFlow_unfold.
  assert (option_Forall2 same_ends (find_edge edges edgeId) (find_edge edges' edgeId)) as Hfe.
  { apply find_related; [done|]. intros x y (Hid & _). by rewrite Hid. }
  destruct Hfe as [edge edge' (_ & _ & Hto)|]; [|done].
  assert (option_Forall2 same_demand (find_node nodes (edge_to edge))
            (find_node nodes' (edge_to edge'))) as Hfn.
  { apply find_related; [done|]. intros x y (Hid & _). by rewrite Hid, Hto. }
  destruct Hfn as [n n' (Hid & Hty & Hbtu)|]; [|done].
  rewrite <- Hid, <- Hty, <- Hbtu.
  rewrite (add_flows_ext _ _ _ _ IH).
  symmetry. apply add_flows_related. unfold outgoing.
  apply filter_related; [done|]. intros x y (_ & Hfrom & _). by rewrite Hfrom.
Qed.


(** The aggregation reads the id, type and btu of nodes and the id and
    ends of pipes, and nothing else: position, name, size and length do
    not enter any flow. *)
Theorem flow_reads_topology_only nodes nodes' edges edges' fuel (edgeId : string) :
  Forall2 same_demand nodes nodes' → Forall2 same_ends edges edges' →
  getFlow nodes' edges' fuel edgeId = getFlow nodes edges fuel edgeId.
Proof. intros Hn He. by apply getFlow_related. Qed.

Lemma flow_reads_topology_only_witness :
  getFlow ((λ n, mkNode (node_id n) (node_type n) 0 0 "renamed" (node_btu n)) <$> demo_nodes)
          demo_edges 3 "e1"
  = getFlow demo_nodes demo_edges 3 "e1".
Proof.
  apply flow_reads_topology_only.
  - unfold demo_nodes. repeat constructor.
  - unfold demo_edges. repeat constructor.
Defined.

(** ** Validator: the keys of the mapping *)

Lemma validate_from_keys cap nodes edges fuel acc l results (k : string) :
  validate_from cap nodes edges fuel (Some acc) l = Some results →
  is_Some (results !! k) ↔ k ∈ edge_id <$> l ∨ is_Some (acc !! k).
Proof.
  revert acc. induction l as [|e l IH]; intros acc Hrun.
  - injection Hrun as <-. rewrite fmap_nil, elem_of_nil. tauto.
  - rewrite validate_from_cons in Hrun.
    destruct (getFlow nodes edges fuel (edge_id e)) as [fl|]; [|done].
    rewrite (IH _ Hrun), fmap_cons, elem_of_cons.
    destruct (decide (edge_id e = k)) as [->|Hne].
    + rewrite lookup_insert_eq. split; [tauto|]. intros _. right. by eexists.
    + rewrite lookup_insert_ne by done. split; [tauto|].
      intros [[Heq|]|]; [by destruct Hne|tauto|tauto].
Qed.

(** Whenever the pass returns, its mapping has an entry for exactly the
    identifiers of the current edges: none is missing and none is left
    over, with or without repeated identifiers. *)
Theorem validation_keys_are_edge_ids cap nodes edges fuel results :
  validateSystem cap nodes edges fuel = Some results →
  ∀ k : string, is_Some (results !! k) ↔ k ∈ edge_id <$> edges.
Proof.
  intros Hrun k. rewrite validateSystem_from in Hrun.
  rewrite (validate_from_keys _ _ _ _ _ _ _ k Hrun), lookup_empty.
  split; [intros [|[? ?]]; done|tauto].
Qed.

Lemma validation_keys_are_edge_ids_witness :
  is_Some (default ∅ (validateSystem (λ _ _, 77000) demo_nodes demo_edges 3) !! "e9")
  ↔ "e9" ∈ edge_id <$> demo_edges.
Proof.
  apply (validation_keys_are_edge_ids (λ _ _, 77000) demo_nodes demo_edges 3).
  reflexivity.
Defined.

(** ** Interaction State Machine: taps in SELECT mode *)

Lemma step_keeps_tap_counter (w : App.World) (ev : App.Event) :
  0 ≤ taps_counted (App.canvas w) ≤ 1 →
  0 ≤ taps_counted (App.canvas (App.step w ev)) ≤ 1.
Proof.
  destruct w as [a [drag pf mp ds hm tap [lid lt tc]]]. unfold taps_counted. simpl.
  intros Htc. destruct ev; simpl; try done.
  - unfold Canvas.handleInteractionMove. simpl. by destruct (truthy drag).
  - unfold Canvas.handleInteractionEnd. simpl.
    destruct (App.selectedTool a); simpl.
    + repeat (match goal with
              | |- context [if ?c then _ else _] => destruct c; simpl
              end); done.
    + destruct hm; simpl; [done|].
      repeat (case_bool_decide; simpl in *); lia.
  - unfold Canvas.toolEffect. by case_bool_decide.
Qed.

(** The tap counter only ever holds 0 or 1, whatever the events. *)
Theorem tap_counter_stays_small (w : App.World) (evs : list App.Event) :
  0 ≤ taps_counted (App.canvas w) ≤ 1 →
  0 ≤ taps_counted (App.canvas (App.run w evs)) ≤ 1.
Proof.
  revert w. induction evs as [|ev evs IH]; intros w Hw; [done|].
  apply (IH (App.step w ev)). by apply step_keeps_tap_counter.
Qed.

Lemma tap_counter_stays_small_witness :
  0 ≤ taps_counted (App.canvas (App.run
        (App.mkWorld demo_state Canvas.initial)
        (App.tapNode (mkPoint 500 300) 1000 "x1" "w"
         ++ App.tapNode (mkPoint 500 300) 1200 "x2" "w"))) ≤ 1.
Proof.
  apply (tap_counter_stays_small (App.mkWorld demo_state Canvas.initial)).
  compute. split; discriminate.
Defined.

(** In SELECT mode, of two taps on the same element less than 500 ms
    apart exactly one requests the editor and the other selects; taps at
    least 500 ms apart, or on another element, select. *)
Theorem double_tap_requests_edit (props props' : Canvas.Props) (st : Canvas.State)
    (c1 c2 : Point) (t1 t2 : Z) (id : string) (isNode : bool) :
  Canvas.selectedTool props = select → Canvas.selectedTool props' = select →
  0 ≤ taps_counted st ≤ 1 →
  let first := tap_gesture props st c1 t1 id isNode in
  let second := tap_gesture props' first.1 c2 t2 id isNode in
  (t2 - t1 < 500 →
     (first.2 = [Canvas.Select (Some id)] ∧ second.2 = [Canvas.Edit id]
      ∧ taps_counted second.1 = 0)
     ∨ (first.2 = [Canvas.Edit id] ∧ second.2 = [Canvas.Select (Some id)]
        ∧ taps_counted second.1 = 1))
  ∧ (500 ≤ t2 - t1 → second.2 = [Canvas.Select (Some id)])
  ∧ ∀ other isNode', other ≠ id →
      (tap_gesture props' first.1 c2 t2 other isNode').2 = [Canvas.Select (Some other)].
Proof.
  destruct props as [ns tool sel mob], props' as [ns' tool' sel' mob'].
  destruct st as [drag pf mp ds hm tap [lid lt tc]]. unfold taps_counted. simpl.
  intros -> -> Htc. unfold tap_gesture, Canvas.handleInteractionEnd,
    Canvas.handleInteractionStart. simpl.
  split; [|split].
  - intros Hfast.
    repeat (case_bool_decide; simpl in *; try lia); try done; auto.
  - intros Hslow.
    repeat (case_bool_decide; simpl in *; try lia); try done.
  - intros other isNode' Hne.
    repeat (case_bool_decide; simpl in *; try lia); try done; congruence.
Qed.

Lemma double_tap_requests_edit_witness :
  (tap_gesture (App.props demo_state) Canvas.initial (mkPoint 500 300) 1000 "w" true).2
    = [Canvas.Select (Some "w")]
  ∧ (tap_gesture (App.props demo_state)
       (tap_gesture (App.props demo_state) Canvas.initial (mkPoint 500 300) 1000 "w" true).1
       (mkPoint 500 300) 1300 "w" true).2
    = [Canvas.Edit "w"].
Proof.
  destruct (double_tap_requests_edit (App.props demo_state) (App.props demo_state)
              Canvas.initial (mkPoint 500 300) (mkPoint 500 300) 1000 1300 "w" true)
    as (Hfast & _ & _); [reflexivity|reflexivity|compute; split; discriminate|].
  destruct Hfast as [(H1 & H2 & _)|(H1 & _ & _)]; [lia|by split|].
  discriminate H1.
Defined.

(** ** Interaction State Machine: what a release can do *)

Lemma is_target_node_inv (nodes : list AppNode) (id : string) :
  existsb (λ n, bool_decide (node_id n = id)) nodes = true →
  id ∈ node_id <$> nodes.
Proof.
  intros (n & Hn & Hid)%existsb_exists. apply bool_decide_eq_true in Hid as <-.
  apply list_elem_of_fmap_2. by apply list_elem_of_In.
Qed.

Lemma truthy_Some (v : option string) :
  truthy v = true → ∃ s, v = Some s ∧ s ≠ EmptyString.
Proof.
  destruct v as [s|]; [|done]. simpl. intros H%bool_decide_eq_true. by exists s.
Qed.

(** The four outcomes of a release in PIPE mode. *)
Lemma release_in_pipe_mode props st now under (id : string) (isNode : bool) :
  Canvas.selectedTool props = pipe →
  let r := Canvas.handleInteractionEnd props st now under id isNode in
  (∃ target, target ∈ node_id <$> Canvas.nodes props
     ∧ truthy (Canvas.tapPipingSource st) = false
     ∧ r = (Canvas.releasePointer (Canvas.setTapPipingSource (Some target) st),
            [Canvas.Select None]))
  ∨ (∃ src, Canvas.tapPipingSource st = Some src ∧ src ≠ EmptyString
     ∧ r = (Canvas.releasePointer (Canvas.setTapPipingSource None st), []))
  ∨ (∃ src target, Canvas.tapPipingSource st = Some src ∧ src ≠ EmptyString
     ∧ src ≠ target ∧ target ∈ node_id <$> Canvas.nodes props
     ∧ r = (Canvas.releasePointer (Canvas.setTapPipingSource None st),
            [Canvas.AddEdge src target]))
  ∨ r = (Canvas.releasePointer st, []).
Proof.
  intros Htool. unfold Canvas.handleInteractionEnd. rewrite Htool.
  set (target := if Canvas.isMobile props && Canvas.hasMovedSignificant st
                 then match under with
                      | Some attr => if bool_decide (attr ≠ EmptyString) then attr else id
                      | None => id
                      end
                 else id).
  destruct (existsb (λ n, bool_decide (node_id n = target)) (Canvas.nodes props))
    eqn:Hnode; [|by repeat right].
  apply is_target_node_inv in Hnode.
  destruct (truthy (Canvas.tapPipingSource st)) eqn:Htruthy; simpl.
  2: { left. by exists target. }
  apply truthy_Some in Htruthy as (src & Hsrc & Hne). rewrite Hsrc.
  destruct (bool_decide (Some src = Some target) && negb (Canvas.hasMovedSignificant st)).
  { right. left. by exists src. }
  case_bool_decide as Hdiff; [|by repeat right].
  right. right. left. exists src, target. repeat split; try done. congruence.
Qed.

(** A release in SELECT mode leaves the lock alone and asks at most for a
    selection or for the editor of the released element. *)
Lemma release_in_select_mode props st now under (id : string) (isNode : bool) :
  Canvas.selectedTool props = select →
  let r := Canvas.handleInteractionEnd props st now under id isNode in
  Canvas.tapPipingSource r.1 = Canvas.tapPipingSource st
  ∧ (r.2 = [] ∨ r.2 = [Canvas.Select (Some id)] ∨ r.2 = [Canvas.Edit id]).
Proof.
  intros Htool. unfold Canvas.handleInteractionEnd. rewrite Htool.
  destruct (negb (Canvas.hasMovedSignificant st)); [|by split; [|left]].
  case_bool_decide; simpl; split; auto.
Qed.

(** An event changes the list of pipes in one of two ways only: a release
    in PIPE mode appends one pipe, from the locked source to a different,
    existing node, with the selected size and length 10; a click on a
    delete indicator removes the pipes that touch that node.  Every other
    event, and every other release, leaves the pipes as they are. *)
Theorem events_and_pipes (w : App.World) (ev : App.Event) :
  App.edges (App.app (App.step w ev)) = App.edges (App.app w)
  ∨ (∃ now under rand id isNode src target,
       ev = App.InteractionEnd now under rand id isNode
       ∧ App.selectedTool (App.app w) = pipe
       ∧ Canvas.tapPipingSource (App.canvas w) = Some src
       ∧ src ≠ target
       ∧ target ∈ node_id <$> App.nodes (App.app w)
       ∧ Canvas.tapPipingSource (App.canvas (App.step w ev)) = None
       ∧ App.edges (App.app (App.step w ev))
         = App.edges (App.app w)
           ++ [mkEdge rand src target (App.selectedPipeSize (App.app w)) 10])
  ∨ (∃ id, ev = App.DeleteClick id
       ∧ App.edges (App.app (App.step w ev))
         = filter (λ e, edge_from e ≠ id ∧ edge_to e ≠ id) (App.edges (App.app w))).
Proof.
  destruct w as [a c]. destruct ev as [coords id isNode|coords|now under rand id isNode| | |id|tool];
    simpl.
  - by left.
  - left. unfold Canvas.handleInteractionMove, App.deliver. simpl.
    destruct (truthy (Canvas.draggingNode c)); by destruct a.
  - destruct (App.selectedTool a) eqn:Htool.
    + pose proof (release_in_pipe_mode (App.props a) c now under id isNode Htool) as Hr.
      simpl in Hr. unfold App.deliver.
      destruct Hr as [(t & _ & _ & ->)|[(s & _ & _ & ->)|[(s & t & Hs & _ & Hd & Ht & ->)| ->]]];
        simpl; try (left; by destruct a).
      right. left. exists now, under, rand, id, isNode, s, t.
      repeat split; try done; by destruct a.
    + pose proof (release_in_select_mode (App.props a) c now under id isNode Htool) as [_ Hr].
      simpl in Hr. unfold App.deliver. left.
      destruct Hr as [-> |[-> | ->]]; simpl; try done; destruct a; simpl; try done.
      by destruct isMobile.
  - left. unfold App.deliver. simpl. case_bool_decide; by destruct a.
  - by left.
  - right. right. exists id. by destruct a.
  - left. by destruct a.
Qed.

(** ** The designer keeps the graph well formed *)

Lemma no_dangling_same_ids nodes nodes' edges :
  node_id <$> nodes' = node_id <$> nodes →
  no_dangling nodes edges → no_dangling nodes' edges.
Proof. intros Hids Hnd e He. rewrite Hids. by apply Hnd. Qed.

Lemma dragged_nodes_ids (dragging : option string) (coords : Point)
    (nodes : list AppNode) :
  node_id <$> ((λ n, if bool_decide (Some (node_id n) = dragging)
                     then mkNode (node_id n) (node_type n) (px coords) (py coords)
                                 (node_name n) (node_btu n)
                     else n) <$> nodes)
  = node_id <$> nodes.
Proof.
  rewrite <- list_fmap_compose. apply list_fmap_ext. intros i n _. simpl.
  by case_bool_decide.
Qed.

Lemma no_dangling_delete_node nodes edges (id : string) :
  no_dangling nodes edges →
  no_dangling (filter (λ n, node_id n ≠ id) nodes)
              (filter (λ e, edge_from e ≠ id ∧ edge_to e ≠ id) edges).
Proof.
  intros Hnd e (Hends & He)%list_elem_of_filter.
  destruct (Hnd e He) as [Hf Ht]. destruct Hends as [Hfrom Hto].
  apply list_elem_of_fmap in Hf as (nf & Hnf & Hfin).
  apply list_elem_of_fmap in Ht as (nt & Hnt & Htin).
  split.
  - rewrite Hnf. apply list_elem_of_fmap_2. apply list_elem_of_filter.
    split; [congruence|done].
  - rewrite Hnt. apply list_elem_of_fmap_2. apply list_elem_of_filter.
    split; [congruence|done].
Qed.

Lemma no_dangling_add_edge nodes edges (e : AppEdge) :
  no_dangling nodes edges →
  edge_from e ∈ node_id <$> nodes → edge_to e ∈ node_id <$> nodes →
  no_dangling nodes (edges ++ [e]).
Proof.
  intros Hnd Hf Ht e' [He'|He']%elem_of_app; [by apply Hnd|].
  apply list_elem_of_singleton in He' as ->. done.
Qed.

Lemma no_dangling_add_node nodes edges (n : AppNode) :
  no_dangling nodes edges → no_dangling (nodes ++ [n]) edges.
Proof.
  intros Hnd e He. destruct (Hnd e He) as [Hf Ht].
  rewrite fmap_app. split; apply elem_of_app; by left.
Qed.

Lemma canvas_step_consistent (a : App.State) (c : Canvas.State) (ev : App.Event) :
  (App.selectedTool a = select → Canvas.tapPipingSource c = None) →
  (∀ src, Canvas.tapPipingSource c = Some src → src ∈ node_id <$> App.nodes a) →
  no_dangling (App.nodes a) (App.edges a) →
  (∀ id, ev = App.DeleteClick id → App.selectedTool a = select) →
  let w' := App.step (App.mkWorld a c) ev in
  (App.selectedTool (App.app w') = select → Canvas.tapPipingSource (App.canvas w') = None)
  ∧ (∀ src, Canvas.tapPipingSource (App.canvas w') = Some src →
            src ∈ node_id <$> App.nodes (App.app w'))
  ∧ no_dangling (App.nodes (App.app w')) (App.edges (App.app w')).
Proof.
  intros Hsel Hlock Hnd Hdel.
  destruct ev as [coords id isNode|coords|now under rand id isNode| | |id|tool]; simpl.
  - done.
  - unfold Canvas.handleInteractionMove, App.deliver. simpl.
    destruct (truthy (Canvas.draggingNode c)); simpl; [|done].
    destruct a as [ns es tool size sel mob sme]; simpl in *.
    rewrite dragged_nodes_ids. split; [done|]. split; [done|].
    eapply no_dangling_same_ids; [|exact Hnd]. apply dragged_nodes_ids.
  - destruct (App.selectedTool a) eqn:Htool.
    + pose proof (release_in_pipe_mode (App.props a) c now under id isNode Htool) as Hr.
      simpl in Hr. unfold App.deliver.
      destruct Hr as [(t & Ht & _ & ->)|[(s & _ & _ & ->)|[(s & t & Hs & _ & Hd & Ht & ->)| ->]]];
        simpl; destruct a as [ns es tool size sel mob sme]; simpl in *; subst tool.
      * split; [done|]. split; [by intros src [= <-]|done].
      * done.
      * split; [done|]. split; [done|].
        apply no_dangling_add_edge; [done| |done]. simpl. by apply Hlock.
      * done.
    + pose proof (release_in_select_mode (App.props a) c now under id isNode Htool)
        as [Htap Hr].
      simpl in Hr, Htap. unfold App.deliver. rewrite Htap.
      destruct Hr as [Hr|[Hr|Hr]]; rewrite Hr; simpl;
        destruct a as [ns es tool size sel mob sme]; simpl in *;
        unfold App.onEdit; simpl; try destruct mob; simpl;
        (split; [intros _; by apply Hsel|done]).
  - unfold App.deliver. simpl.
    case_bool_decide; destruct a; simpl in *; done.
  - done.
  - specialize (Hdel id eq_refl). specialize (Hsel Hdel).
    destruct a as [ns es tool size sel mob sme]; simpl in *.
    split; [done|]. split; [by rewrite Hsel|]. by apply no_dangling_delete_node.
  - unfold Canvas.toolEffect. destruct a as [ns es tool' size sel mob sme]; simpl in *.
    case_bool_decide as Ht; simpl; [done|].
    split; [done|]. done.
Qed.

Lemma designer_step_consistent (w : AppShell.World) (ev : AppShell.Event) :
  designer_consistent w → AppShell.enabled w ev →
  designer_consistent (AppShell.step w ev).
Proof.
  destruct w as [[v cid pn a f1 f2 rp sr] c]. unfold designer_consistent. simpl.
  intros (Hsel & Hlock & Hnd) Hen. destruct ev as [ev|rand type btu name]; simpl.
  - apply canvas_step_consistent; try done.
    intros id ->. simpl in Hen. tauto.
  - destruct a as [ns es tool size sel mob sme]; simpl in *.
    assert (no_dangling
              (ns ++ [mkNode rand type 500 500
                        (if truthy name then default EmptyString name
                         else AppShell.default_name type) (default 0 btu)]) es) as Hnd'
      by by apply no_dangling_add_node.
    assert (∀ src, Canvas.tapPipingSource c = Some src →
                   src ∈ node_id <$> (ns ++ [mkNode rand type 500 500
                        (if truthy name then default EmptyString name
                         else AppShell.default_name type) (default 0 btu)])) as Hlock'.
    { intros src Hsrc. rewrite fmap_app. apply elem_of_app. left. by apply Hlock. }
    by destruct mob.
Qed.

Lemma designer_run_consistent (w : AppShell.World) (evs : list AppShell.Event) :
  designer_consistent w → AppShell.feasible w evs →
  designer_consistent (AppShell.run w evs).
Proof.
  revert w. induction evs as [|ev evs IH]; intros w Hw Hevs; [done|].
  destruct Hevs as [Hen Hevs]. apply (IH (AppShell.step w ev)); [|done].
  by apply designer_step_consistent.
Qed.

(** From a graph without a dangling pipe and a Canvas that holds no
    locked source, as it is when the designer opens, every sequence of
    Canvas events and added components that the designer can produce
    leaves no pipe dangling, a locked source that is a node of the
    project, and no lock in SELECT mode.  (The Load button is not among
    these events.) *)
Theorem designer_keeps_graph_well_formed (w : AppShell.World)
    (evs : list AppShell.Event) :
  no_dangling (App.nodes (AppShell.shell (AppShell.app w)))
              (App.edges (AppShell.shell (AppShell.app w))) →
  Canvas.tapPipingSource (AppShell.canvas w) = None →
  AppShell.feasible w evs →
  designer_consistent (AppShell.run w evs).
Proof.
  intros Hnd Hfree Hevs. apply designer_run_consistent; [|done].
  split; [done|]. split; [|done]. intros src Hsrc. congruence.
Qed.

Lemma demo_no_dangling : no_dangling demo_nodes demo_edges.
Proof.
  intros e He. unfold demo_edges in He.
  repeat (apply elem_of_cons in He as [->|He]; [split; compute_done|]).
  by apply elem_of_nil in He.
Qed.

Lemma designer_keeps_graph_well_formed_witness :
  designer_consistent
    (AppShell.run demo_shell
       [AppShell.CanvasEvent (App.DeleteClick "w");
        AppShell.AddNode "n1" APPLIANCE (Some 30000) (Some "Fireplace");
        AppShell.CanvasEvent (App.ToolSelected pipe);
        AppShell.CanvasEvent (App.InteractionStart (mkPoint 300 500) "j" true);
        AppShell.CanvasEvent (App.InteractionEnd 1000 None "x1" "j" true);
        AppShell.CanvasEvent (App.InteractionStart (mkPoint 500 500) "n1" true);
        AppShell.CanvasEvent (App.InteractionEnd 2000 None "x2" "n1" true)]).
Proof.
  apply designer_keeps_graph_well_formed.
  - exact demo_no_dangling.
  - reflexivity.
  - simpl. tauto.
Defined.

(** ** The pipe tool does not keep the graph acyclic *)

Lemma add_flows_stuck sub init outs (out : AppEdge) :
  out ∈ outs → sub (edge_id out) = None → add_flows sub init outs = None.
Proof.
  intros Hin Hnone. destruct (add_flows sub init outs) as [v|] eqn:Hrun; [|done].
  apply add_flows_Some in Hrun as (flows & HF & _).
  apply list_elem_of_lookup in Hin as [i Hi].
  destruct (Forall2_lookup_l _ _ _ _ _ HF Hi) as (x & _ & Hx). congruence.
Qed.

Lemma validate_from_stuck cap nodes edges fuel acc l (e : AppEdge) :
  e ∈ l → getFlow nodes edges fuel (edge_id e) = None →
  validate_from cap nodes edges fuel (Some acc) l = None.
Proof.
  revert acc. induction l as [|x l IH]; intros acc Hin Hnone.
  - by apply elem_of_nil in Hin.
  - rewrite validate_from_cons.
    destruct (getFlow nodes edges fuel (edge_id x)) as [fl|] eqn:Hx; [|done].
    apply elem_of_cons in Hin as [->|Hin]; [congruence|]. by apply IH.
Qed.

Lemma find_edge_fresh edges (e : AppEdge) rest :
  edge_id e ∉ edge_id <$> edges →
  find_edge (edges ++ e :: rest) (edge_id e) = Some e.
Proof.
  unfold find_edge. induction edges as [|x l IH]; intros Hfresh; simpl.
  - by rewrite bool_decide_eq_true_2.
  - rewrite fmap_cons, not_elem_of_cons in Hfresh. destruct Hfresh as [Hne Hfresh].
    rewrite bool_decide_eq_false_2 by done. by apply IH.
Qed.

Lemma find_node_present nodes (id : string) :
  id ∈ node_id <$> nodes → ∃ n, find_node nodes id = Some n ∧ node_id n = id.
Proof.
  intros Hin. destruct (find_node nodes id) as [n|] eqn:Hfind.
  - exists n. split; [done|]. by apply find_node_Some in Hfind as [_ ?].
  - exfalso. apply list_elem_of_fmap in Hin as (n & -> & Hn).
    unfold find_node in Hfind.
    apply list_elem_of_In in Hn. apply (find_none _ _ Hfind n) in Hn.
    by apply bool_decide_eq_false in Hn.
Qed.

(** Two pipes that face each other stall the aggregation and the pass. *)
Lemma facing_pipes_diverge cap nodes edges (e1 e2 : AppEdge) :
  edge_id e1 ∉ edge_id <$> edges → edge_id e2 ∉ edge_id <$> edges →
  edge_id e1 ≠ edge_id e2 →
  edge_from e1 = edge_to e2 → edge_to e1 = edge_from e2 →
  edge_from e1 ∈ node_id <$> nodes → edge_to e1 ∈ node_id <$> nodes →
  ∀ fuel,
    getFlow nodes (edges ++ [e1; e2]) fuel (edge_id e1) = None
    ∧ getFlow nodes (edges ++ [e1; e2]) fuel (edge_id e2) = None
    ∧ validateSystem cap nodes (edges ++ [e1; e2]) fuel = None.
Proof.
  intros Hf1 Hf2 Hne Hab Hba HA HB.
  assert (find_edge (edges ++ [e1; e2]) (edge_id e1) = Some e1) as Hfind1
    by by apply find_edge_fresh.
  assert (find_edge (edges ++ [e1; e2]) (edge_id e2) = Some e2) as Hfind2.
  { change (edges ++ [e1; e2]) with (edges ++ [e1] ++ [e2]). rewrite app_assoc.
    apply find_edge_fresh. rewrite fmap_app. intros [H|H]%elem_of_app; [done|].
    apply list_elem_of_singleton in H. congruence. }
  destruct (find_node_present nodes _ HB) as (nB & HnB & HidB).
  destruct (find_node_present nodes _ HA) as (nA & HnA & HidA).
  assert (e1 ∈ edges ++ [e1; e2]) as Hin1 by (apply elem_of_app; right; by left).
  assert (e2 ∈ edges ++ [e1; e2]) as Hin2 by (apply elem_of_app; right; right; by left).
  assert (∀ fuel,
    getFlow nodes (edges ++ [e1; e2]) fuel (edge_id e1) = None
    ∧ getFlow nodes (edges ++ [e1; e2]) fuel (edge_id e2) = None) as Hloop.
  { induction fuel as [|fuel [IH1 IH2]]; [done|]. rewrite !getFlow_unfold.
    rewrite Hfind1, Hfind2, HnB. rewrite <- Hab in *. rewrite HnA. split.
    - apply (add_flows_stuck _ _ _ e2); [|done].
      apply outgoing_spec. split; [done|congruence].
    - apply (add_flows_stuck _ _ _ e1); [|done].
      apply outgoing_spec. split; [done|congruence]. }
  intros fuel. destruct (Hloop fuel) as [H1 H2]. split; [done|]. split; [done|].
  rewrite validateSystem_from. by apply (validate_from_stuck _ _ _ _ _ _ e1).
Qed.

(** Nothing stops the pipe tool from closing a loop: after connecting
    [A] to [B] and then [B] to [A] the edge set has a cycle, the
    aggregation of the two new pipes never returns, and neither does the
    validation pass. *)
Theorem pipe_tool_can_close_a_cycle (cap : string → R → number) (w : App.World)
    (A B : string) (c : Point) (now : Z) (r1 r2 : string) :
  App.selectedTool (App.app w) = pipe →
  Canvas.tapPipingSource (App.canvas w) = None →
  A ∈ node_id <$> App.nodes (App.app w) →
  B ∈ node_id <$> App.nodes (App.app w) →
  A ≠ B → A ≠ EmptyString → B ≠ EmptyString →
  r1 ∉ edge_id <$> App.edges (App.app w) →
  r2 ∉ edge_id <$> App.edges (App.app w) → r1 ≠ r2 →
  let w' := App.run w (App.tapNode c now r1 A ++ App.tapNode c now r1 B
                       ++ App.tapNode c now r2 B ++ App.tapNode c now r2 A) in
  App.edges (App.app w')
    = App.edges (App.app w)
      ++ [mkEdge r1 A B (App.selectedPipeSize (App.app w)) 10;
          mkEdge r2 B A (App.selectedPipeSize (App.app w)) 10]
  ∧ App.nodes (App.app w') = App.nodes (App.app w)
  ∧ ¬ acyclic (App.edges (App.app w'))
  ∧ ∀ fuel,
      getFlow (App.nodes (App.app w')) (App.edges (App.app w')) fuel r1 = None
      ∧ validateSystem cap (App.nodes (App.app w')) (App.edges (App.app w')) fuel = None.
Proof.
  intros Htool Hfree HA HB Hdiff HneA HneB Hr1 Hr2 Hr12 w'.
  assert (App.edges (App.app w')
          = App.edges (App.app w)
            ++ [mkEdge r1 A B (App.selectedPipeSize (App.app w)) 10;
                mkEdge r2 B A (App.selectedPipeSize (App.app w)) 10]
          ∧ App.nodes (App.app w') = App.nodes (App.app w)) as [Hedges Hnodes].
  { subst w'. clear Hr1 Hr2 Hr12.
    destruct w as [[ns es tool size sel mob sme] [drag pf mp ds hm tap ist]].
    simpl in Htool, Hfree, HA, HB. subst tool tap. rewrite !run_app.
    rewrite (tap_locks_source (App.mkWorld _ _) c now r1 A) by done.
    rewrite (tap_completes_connection (App.mkWorld _ _) c now r1 A B) by done.
    rewrite (tap_locks_source (App.mkWorld _ _) c now r2 B) by done.
    rewrite (tap_completes_connection (App.mkWorld _ _) c now r2 B A) by done. simpl.
    by rewrite <- app_assoc. }
  clearbody w'. rewrite Hedges, Hnodes. clear Hedges Hnodes w'.
  set (es := App.edges (App.app w)) in *.
  set (ns := App.nodes (App.app w)) in *.
  set (size := App.selectedPipeSize (App.app w)).
  split; [done|]. split; [done|]. split.
  - intros Hacyc. apply (Hacyc A). eapply tc_l; [|apply tc_once].
    + exists (mkEdge r1 A B size 10). split; [|done]. apply elem_of_app. right. by left.
    + exists (mkEdge r2 B A size 10). split; [|done].
      apply elem_of_app. right. right. by left.
  - intros fuel.
    destruct (facing_pipes_diverge cap ns es (mkEdge r1 A B size 10)
                (mkEdge r2 B A size 10)) with (fuel := fuel) as (H1 & _ & H3); done.
Qed.

Lemma pipe_tool_can_close_a_cycle_witness :
  ¬ acyclic (App.edges (App.app (App.run demo_world
      (App.tapNode (mkPoint 0 0) 0 "x1" "w" ++ App.tapNode (mkPoint 0 0) 0 "x1" "c"
       ++ App.tapNode (mkPoint 0 0) 0 "x2" "c" ++ App.tapNode (mkPoint 0 0) 0 "x2" "w")))).
Proof.
  destruct (pipe_tool_can_close_a_cycle (λ _ _, 0) demo_world "w" "c"
              (mkPoint 0 0) 0 "x1" "x2") as (_ & _ & H & _);
    [reflexivity|reflexivity|compute_done|compute_done|done|done|done
    |compute_done|compute_done|done|exact H].
Defined.

(** ** Dragging in SELECT mode *)

Lemma dragged_nodes_same_demand (dragging : option string) (coords : Point)
    (nodes : list AppNode) :
  Forall2 same_demand nodes
    ((λ n, if bool_decide (Some (node_id n) = dragging)
           then mkNode (node_id n) (node_type n) (px coords) (py coords)
                       (node_name n) (node_btu n)
           else n) <$> nodes).
Proof.
  induction nodes as [|n l IH]; [constructor|]. rewrite fmap_cons. constructor; [|exact IH].
  by case_bool_decide.
Qed.

Lemma same_ends_refl (edges : list AppEdge) : Forall2 same_ends edges edges.
Proof. induction edges; constructor; [done|assumption]. Qed.

(** In SELECT mode every pointer move after a press on a node puts that
    node at the pointer, however small the move: only the coordinates of
    the nodes with the pressed identifier change, the pipes stay, and no
    flow changes. *)
Theorem drag_relocates_pressed_node (w : App.World) (c0 c : Point) (A : string) :
  App.selectedTool (App.app w) = select → A ≠ EmptyString →
  let w' := App.run w [App.InteractionStart c0 A true; App.InteractionMove c] in
  App.nodes (App.app w')
    = (λ n, if bool_decide (node_id n = A)
            then mkNode (node_id n) (node_type n) (px c) (py c) (node_name n) (node_btu n)
            else n) <$> App.nodes (App.app w)
  ∧ App.edges (App.app w') = App.edges (App.app w)
  ∧ ∀ fuel edgeId,
      getFlow (App.nodes (App.app w')) (App.edges (App.app w')) fuel edgeId
      = getFlow (App.nodes (App.app w)) (App.edges (App.app w)) fuel edgeId.
Proof.
  destruct w as [[ns es tool size sel mob sme] [drag pf mp ds hm tap ist]].
  simpl. intros -> Hne.
  unfold App.deliver, Canvas.handleInteractionMove. simpl.
  rewrite (bool_decide_eq_true_2 _ Hne). simpl.
  assert (∀ l : list AppNode,
    (λ n, if bool_decide (Some (node_id n) = Some A)
          then mkNode (node_id n) (node_type n) (px c) (py c) (node_name n) (node_btu n)
          else n) <$> l
    = (λ n, if bool_decide (node_id n = A)
            then mkNode (node_id n) (node_type n) (px c) (py c) (node_name n) (node_btu n)
            else n) <$> l) as Hmap.
  { intros l. apply list_fmap_ext. intros i n _.
    destruct (decide (node_id n = A)) as [Heq|Hneq].
    - by rewrite !bool_decide_eq_true_2 by congruence.
    - by rewrite !bool_decide_eq_false_2 by congruence. }
  split; [apply Hmap|]. split; [done|].
  intros fuel edgeId. apply getFlow_related; [|apply same_ends_refl].
  apply dragged_nodes_same_demand.
Qed.

Lemma drag_relocates_pressed_node_witness :
  App.edges (App.app (App.run (App.mkWorld demo_state Canvas.initial)
     [App.InteractionStart (mkPoint 500 300) "w" true; App.InteractionMove (mkPoint 501 300)]))
  = demo_edges.
Proof.
  destruct (drag_relocates_pressed_node (App.mkWorld demo_state Canvas.initial)
              (mkPoint 500 300) (mkPoint 501 300) "w") as (_ & H & _);
    [reflexivity|done|exact H].
Defined.



(** ** Adding a component *)

Lemma find_node_app_present nodes (extra : list AppNode) (id : string) :
  id ∈ node_id <$> nodes → find_node (nodes ++ extra) id = find_node nodes id.
Proof.
  unfold find_node. induction nodes as [|n l IH]; intros Hin.
  - by apply elem_of_nil in Hin.
  - simpl. case_bool_decide as Hid; [done|].
    rewrite fmap_cons in Hin. apply elem_of_cons in Hin as [Heq|Hin]; [congruence|].
    by apply IH.
Qed.

(** A new component arrives at (500, 500), last in the list and
    selected; when no pipe dangles, it changes no flow, even if the drawn
    identifier happens to be taken already. *)
Theorem add_node_keeps_flows (rand : string) (type : NodeType) (btu : option Z)
    (name : option string) (st : AppShell.State) :
  no_dangling (App.nodes (AppShell.shell st)) (App.edges (AppShell.shell st)) →
  let st' := AppShell.handleAddNode rand type btu name st in
  (∃ n, App.nodes (AppShell.shell st') = App.nodes (AppShell.shell st) ++ [n]
        ∧ node_id n = rand ∧ node_type n = type
        ∧ node_x n = 500%R ∧ node_y n = 500%R ∧ node_btu n = default 0 btu)
  ∧ App.edges (AppShell.shell st') = App.edges (AppShell.shell st)
  ∧ App.selectedId (AppShell.shell st') = Some rand
  ∧ ∀ fuel edgeId,
      getFlow (App.nodes (AppShell.shell st')) (App.edges (AppShell.shell st')) fuel edgeId
      = getFlow (App.nodes (AppShell.shell st)) (App.edges (AppShell.shell st)) fuel edgeId.
Proof.
  destruct st as [v cid pn [ns es tool size sel mob sme] f1 f2 rp sr]. simpl.
  intros Hnd.
  set (n := mkNode rand type 500 500
              (if truthy name then default EmptyString name else AppShell.default_name type)
              (default 0 btu)).
  assert (∀ fuel edgeId, getFlow (ns ++ [n]) es fuel edgeId = getFlow ns es fuel edgeId) as Hflow.
  { induction fuel as [|fuel IH]; intros edgeId; [done|]. rewrite !getFlow_unfold.
    destruct (find_edge es edgeId) as [edge|] eqn:Hfind; [|done].
    apply find_edge_Some in Hfind as [Hin _].
    rewrite find_node_app_present by by apply Hnd.
    destruct (find_node ns (edge_to edge)); [|done].
    by apply add_flows_ext. }
  destruct mob; simpl; (split; [by exists n|]); done.
Qed.

Lemma add_node_keeps_flows_witness :
  getFlow (App.nodes (AppShell.shell
             (AppShell.handleAddNode "w" JUNCTION None None (AppShell.app demo_shell))))
          demo_edges 3 "e1"
  = getFlow demo_nodes demo_edges 3 "e1".
Proof.
  destruct (add_node_keeps_flows "w" JUNCTION None None (AppShell.app demo_shell)
              demo_no_dangling) as (_ & _ & _ & H).
  apply (H 3%nat "e1").
Defined.

(** ** Recent projects of src/App.tsx *)

Lemma filter_all {A} (P : A → Prop) `{!∀ x, Decision (P x)} (l : list A) :
  Forall P l → filter P l = l.
Proof.
  induction 1 as [|x l Hx _ IH]; [done|]. rewrite filter_cons.
  destruct (decide (P x)); [by rewrite IH|done].
Qed.

Lemma filter_take_all {A} (P : A → Prop) `{!∀ x, Decision (P x)} (n : nat) (l : list A) :
  filter P (take n (filter P l)) = take n (filter P l).
Proof.
  apply filter_all. apply Forall_forall. intros x Hx.
  apply elem_of_take in Hx as (i & Hx & _). apply list_elem_of_lookup_2 in Hx.
  by apply list_elem_of_filter in Hx as [? _].
Qed.

(** The identifier under which [handleSave] files the project. *)
Lemma save_id_cases (rand : string) (cid : option string) :
  let id := if truthy cid then default EmptyString cid else rand in
  (∃ i, cid = Some i ∧ i ≠ EmptyString ∧ id = i)
  ∨ (truthy cid = false ∧ id = rand).
Proof.
  destruct (truthy cid) eqn:Ht; simpl; [|by right].
  left. apply truthy_Some in Ht as (i & -> & Hne). by exists i.
Qed.

(** Saving files the current graph at the head of the recent projects,
    under the identifier the project has, or under the drawn one when
    it has none (or an empty one); behind it come the older entries of
    other identifiers, in their order, as far as 15 entries go.  So no
    older entry of the same identifier stays, identifiers are distinct
    when they were, and the same list is written to storage. *)
Theorem save_files_project_first (rand : string) (now : Z) (st : AppShell.State) :
  let st' := AppShell.handleSave rand now st in
  ∃ id rest,
    AppShell.currentProjectId st' = Some id
    ∧ (∀ i, AppShell.currentProjectId st = Some i → i ≠ EmptyString → id = i)
    ∧ (AppShell.currentProjectId st = None
       ∨ AppShell.currentProjectId st = Some EmptyString → id = rand)
    ∧ rest = take 14 (filter (λ p, AppShell.recent_id p ≠ id)
                             (AppShell.recentProjects st))
    ∧ AppShell.recentProjects st'
      = AppShell.mkRecent id (AppShell.projectName st) now
          (App.nodes (AppShell.shell st)) (App.edges (AppShell.shell st)) :: rest
    ∧ (∀ p, p ∈ rest → p ∈ AppShell.recentProjects st ∧ AppShell.recent_id p ≠ id)
    ∧ (length (AppShell.recentProjects st') ≤ 15)%nat
    ∧ (NoDup (AppShell.recent_id <$> AppShell.recentProjects st) →
       NoDup (AppShell.recent_id <$> AppShell.recentProjects st'))
    ∧ AppShell.storedRecents st' = Some (AppShell.recentProjects st').
Proof.
  destruct st as [v cid pn a f1 f2 rp sr]. simpl.
  set (id := if truthy cid then default EmptyString cid else rand).
  exists id, (take 14 (filter (λ p, AppShell.recent_id p ≠ id) rp)).
  split; [done|]. split.
  { intros i -> Hne. unfold id. simpl. by rewrite bool_decide_eq_true_2. }
  split.
  { by intros [->| ->]. }
  split; [done|].
  split; [done|]. split; [|split; [|split; [|done]]].
  - intros p (i & Hp & _)%elem_of_take. apply list_elem_of_lookup_2 in Hp.
    apply list_elem_of_filter in Hp. tauto.
  - simpl. rewrite length_take. lia.
  - intros Hnd.
    change (NoDup (id :: (AppShell.recent_id <$>
              take 14 (filter (λ p, AppShell.recent_id p ≠ id) rp)))).
    apply NoDup_cons. split.
    + intros (p & Hid & Hp)%list_elem_of_fmap.
      apply elem_of_take in Hp as (i & Hp & _). apply list_elem_of_lookup_2 in Hp.
      apply list_elem_of_filter in Hp as [Hne _]. simpl in Hid. congruence.
    + eapply sublist_NoDup; [exact Hnd|]. apply fmap_sublist.
      etrans; [apply sublist_take|apply sublist_filter].
Qed.

(** Opening the entry that a save has just filed gives back the saved
    nodes, pipes, name and identifier. *)
Theorem save_then_open_restores (rand : string) (now : Z)
    (st other : AppShell.State) :
  ∃ p, head (AppShell.recentProjects (AppShell.handleSave rand now st)) = Some p
    ∧ let st' := AppShell.openRecent p other in
      App.nodes (AppShell.shell st') = App.nodes (AppShell.shell st)
      ∧ App.edges (AppShell.shell st') = App.edges (AppShell.shell st)
      ∧ AppShell.projectName st' = AppShell.projectName st
      ∧ AppShell.currentProjectId st'
        = AppShell.currentProjectId (AppShell.handleSave rand now st)
      ∧ AppShell.view st' = AppShell.designer.
Proof.
  destruct st as [v cid pn [ns es tool size sel mob sme] f1 f2 rp sr].
  destruct other as [v' cid' pn' [ns' es' tool' size' sel' mob' sme'] f1' f2' rp' sr'].
  eexists. split; [reflexivity|]. simpl. done.
Qed.

(** Saving again, after any edits, replaces the head entry and leaves
    the rest of the list as it was: repeated saves of one project do not
    push older projects out. *)
Theorem save_again_replaces_head (r1 r2 : string) (t1 t2 : Z)
    (st edited : AppShell.State) :
  (truthy (AppShell.currentProjectId st) = true ∨ r1 ≠ EmptyString) →
  let saved := AppShell.handleSave r1 t1 st in
  AppShell.currentProjectId edited = AppShell.currentProjectId saved →
  AppShell.recentProjects edited = AppShell.recentProjects saved →
  AppShell.currentProjectId (AppShell.handleSave r2 t2 edited)
    = AppShell.currentProjectId saved
  ∧ tail (AppShell.recentProjects (AppShell.handleSave r2 t2 edited))
    = tail (AppShell.recentProjects saved)
  ∧ length (AppShell.recentProjects (AppShell.handleSave r2 t2 edited))
    = length (AppShell.recentProjects saved).
Proof.
  destruct st as [v cid pn a f1 f2 rp sr].
  destruct edited as [v' cid' pn' a' f1' f2' rp' sr']. simpl.
  intros Hid -> ->.
  set (id := if truthy cid then default EmptyString cid else r1).
  assert (id ≠ EmptyString) as Hne.
  { subst id. destruct (truthy cid) eqn:Ht.
    - apply truthy_Some in Ht as (i & -> & Hi). done.
    - by destruct Hid. }
  simpl. rewrite (bool_decide_eq_true_2 _ Hne). simpl.
  rewrite filter_cons. simpl. destruct (decide (id ≠ id)) as [Hbad|_]; [done|].
  rewrite filter_take_all.
  assert (take 14 (take 14 (filter (λ p, AppShell.recent_id p ≠ id) rp))
          = take 14 (filter (λ p, AppShell.recent_id p ≠ id) rp)) as ->.
  { by rewrite take_take, Nat.min_id. }
  done.
Qed.

Lemma save_again_replaces_head_witness :
  length (AppShell.recentProjects
            (AppShell.handleSave "r2" 20
               (AppShell.handleSave "r1" 10 (AppShell.app demo_shell))))
  = length (AppShell.recentProjects (AppShell.handleSave "r1" 10 (AppShell.app demo_shell))).
Proof.
  destruct (save_again_replaces_head "r1" "r2" 10 20 (AppShell.app demo_shell)
              (AppShell.handleSave "r1" 10 (AppShell.app demo_shell)))
    as (_ & _ & H); [by right|reflexivity|reflexivity|exact H].
Defined.

(** In src/App.tsx "Save As" on a project that already has an identifier
    makes no copy: the name on screen changes, but the entry is filed
    under the old identifier and the old name, in place of the existing
    one, and the identifier drawn for the copy is not used.  A blank name
    changes nothing. *)
Theorem save_as_files_under_old_identity (newId rand : string) (now : Z)
    (name : string) (st : AppShell.State) (i : string) :
  AppShell.currentProjectId st = Some i → i ≠ EmptyString →
  let st' := AppShell.handleSaveAs newId rand now name st in
  (is_blank name = true → st' = st)
  ∧ (is_blank name = false →
     AppShell.projectName st' = name
     ∧ AppShell.currentProjectId st' = Some i
     ∧ AppShell.showSaveAsModal st' = false
     ∧ head (AppShell.recentProjects st')
       = Some (AppShell.mkRecent i (AppShell.projectName st) now
                 (App.nodes (AppShell.shell st)) (App.edges (AppShell.shell st)))
     ∧ (∀ p, p ∈ tail (AppShell.recentProjects st') →
             p ∈ AppShell.recentProjects st ∧ AppShell.recent_id p ≠ i)
     ∧ (i ∈ AppShell.recent_id <$> AppShell.recentProjects st →
        (length (AppShell.recentProjects st') ≤ length (AppShell.recentProjects st))%nat)).
Proof.
  destruct st as [v cid pn a f1 f2 rp sr]. simpl. intros -> Hne.
  unfold AppShell.handleSaveAs. split; [by intros ->|]. intros ->. simpl.
  rewrite (bool_decide_eq_true_2 _ Hne). simpl.
  split; [done|]. split; [done|]. split; [done|]. split; [done|]. split.
  - intros p (k & Hp & _)%elem_of_take. apply list_elem_of_lookup_2 in Hp.
    apply list_elem_of_filter in Hp. tauto.
  - intros (p & Hid & Hp)%list_elem_of_fmap. rewrite length_take.
    assert (length (filter (λ p, AppShell.recent_id p ≠ i) rp) < length rp)%nat; [|lia].
    clear -Hid Hp. induction rp as [|x l IH]; [by apply elem_of_nil in Hp|].
    rewrite filter_cons. pose proof (length_filter (λ p, AppShell.recent_id p ≠ i) l).
    apply elem_of_cons in Hp as [<-|Hp].
    + destruct (decide (AppShell.recent_id p ≠ i)); [congruence|simpl; lia].
    + specialize (IH Hp). destruct (decide (AppShell.recent_id x ≠ i)); simpl; lia.
Qed.

Lemma save_as_files_under_old_identity_witness :
  head (AppShell.recentProjects
          (AppShell.handleSaveAs "new" "r" 20 "Copy"
             (AppShell.handleSave "first" 10 (AppShell.app demo_shell))))
  = Some (AppShell.mkRecent "first" "New Project" 20 demo_nodes demo_edges).
Proof.
  destruct (save_as_files_under_old_identity "new" "r" 20 "Copy"
              (AppShell.handleSave "first" 10 (AppShell.app demo_shell)) "first")
    as [_ H]; [reflexivity|done|].
  destruct (H eq_refl) as (_ & _ & _ & Hhead & _ & _). exact Hhead.
Defined.

(** In src/App.tsx "New Project" keeps the identifier of the project
    that was open, so the next save files the new, empty design in place
    of that project: no entry with its saved graph is left. *)
Theorem new_project_save_replaces_open_project (p : AppShell.RecentProject)
    (rand : string) (now : Z) (st : AppShell.State) :
  AppShell.recent_id p ≠ EmptyString →
  let st' := AppShell.handleSave rand now
               (AppShell.newProject (AppShell.openRecent p st)) in
  head (AppShell.recentProjects st')
    = Some (AppShell.mkRecent (AppShell.recent_id p) "New Project" now [] [])
  ∧ ∀ q, q ∈ AppShell.recentProjects st' →
         AppShell.recent_id q = AppShell.recent_id p →
         AppShell.recent_nodes q = [] ∧ AppShell.recent_edges q = [].
Proof.
  destruct st as [v cid pn [ns es tool size sel mob sme] f1 f2 rp sr]. simpl.
  intros Hne. rewrite (bool_decide_eq_true_2 _ Hne). simpl. split; [done|].
  intros q [->|Hq]%elem_of_cons Hid; [done|].
  apply elem_of_take in Hq as (k & Hq & _). apply list_elem_of_lookup_2 in Hq.
  by apply list_elem_of_filter in Hq as [? _].
Qed.

Lemma new_project_save_replaces_open_project_witness :
  head (AppShell.recentProjects
          (AppShell.handleSave "r" 30
             (AppShell.newProject
                (AppShell.openRecent
                   (AppShell.mkRecent "first" "Kitchen" 10 demo_nodes demo_edges)
                   (AppShell.handleSave "first" 10 (AppShell.app demo_shell))))))
  = Some (AppShell.mkRecent "first" "New Project" 30 [] []).
Proof.
  destruct (new_project_save_replaces_open_project
              (AppShell.mkRecent "first" "Kitchen" 10 demo_nodes demo_edges) "r" 30
              (AppShell.handleSave "first" 10 (AppShell.app demo_shell)))
    as [H _]; [done|exact H].
Defined.


(** ** The property panels and the summary of part_002 *)

Lemma add_lengths_cons init e l :
  add_lengths init (e :: l) = add_lengths (init + edge_length e)%R l.
Proof. reflexivity. Qed.

Lemma getSummary_from (acc : gmap string R) (l : list AppEdge) (size : string) :
  foldl (λ pipeTotals edge,
           <[edge_size edge :=
               (default 0%R (pipeTotals !! edge_size edge) + edge_length edge)%R]>
             pipeTotals) acc l !! size
  = match filter (λ e, edge_size e = size) l with
    | [] => acc !! size
    | used => Some (add_lengths (default 0%R (acc !! size)) used)
    end.
Proof.
  revert acc. induction l as [|e l IH]; intros acc; [done|].
  simpl foldl. rewrite IH, filter_cons.
  destruct (decide (edge_size e = size)) as [<-|Hne].
  - rewrite lookup_insert_eq, add_lengths_cons. simpl.
    by destruct (filter (λ e0, edge_size e0 = edge_size e) l).
  - by rewrite lookup_insert_ne.
Qed.

Lemma updateEdge_same_ends id updates edges :
  keeps_ends updates →
  Forall2 same_ends edges (Part002Shell.updateEdge id updates edges).
Proof.
  intros (Hid & Hfrom & Hto). unfold Part002Shell.updateEdge.
  apply Forall2_fmap_r, Forall_Forall2_diag, Forall_forall. intros e _. unfold compose.
  case_bool_decide; [|done]. unfold same_ends, Part002Shell.spread_edge. simpl.
  by rewrite Hid, Hfrom, Hto.
Qed.

Lemma updateNode_same_demand id updates nodes :
  keeps_demand updates →
  Forall2 same_demand nodes (Part002Shell.updateNode id updates nodes).
Proof.
  intros (Hid & Hty & Hbtu). unfold Part002Shell.updateNode.
  apply Forall2_fmap_r, Forall_Forall2_diag, Forall_forall. intros n _. unfold compose.
  case_bool_decide; [|done]. unfold same_demand, Part002Shell.spread_node. simpl.
  by rewrite Hid, Hty, Hbtu.
Qed.

Lemma same_ends_ids edges edges' :
  Forall2 same_ends edges edges' → edge_id <$> edges' = edge_id <$> edges.
Proof.
  induction 1 as [|e e' l l' (Hid & _) _ IH]; [done|].
  by rewrite !fmap_cons, IH, Hid.
Qed.

Lemma same_demand_refl nodes : Forall2 same_demand nodes nodes.
Proof. by apply Forall_Forall2_diag, Forall_forall. Qed.

Lemma validate_from_nodes cap nodes nodes' edges fuel acc l :
  (∀ id, getFlow nodes' edges fuel id = getFlow nodes edges fuel id) →
  validate_from cap nodes' edges fuel acc l = validate_from cap nodes edges fuel acc l.
Proof.
  intros Hflow. revert acc. induction l as [|e l IH]; intros acc; [done|].
  unfold validate_from in *. simpl. rewrite IH. by rewrite Hflow.
Qed.

(** Each row of the pipe summary of part_002 is the sum, from the left,
    of the lengths of the pipes of that size, and a size that no pipe
    uses has no row. *)
Theorem summary_adds_lengths_per_size (edges : list AppEdge) (size : string) :
  Part002Shell.getSummary edges !! size
  = if bool_decide (size ∈ edge_size <$> edges)
    then Some (add_lengths 0 (filter (λ e, edge_size e = size) edges))
    else None.
Proof.
  unfold Part002Shell.getSummary. rewrite getSummary_from, lookup_empty. simpl.
  destruct (filter (λ e, edge_size e = size) edges) as [|e used] eqn:Hused.
  - rewrite bool_decide_eq_false_2; [done|].
    intros (e & He & Hin)%list_elem_of_fmap.
    assert (e ∈ filter (λ e, edge_size e = size) edges) as Hf
      by (by apply list_elem_of_filter).
    rewrite Hused in Hf. by apply elem_of_nil in Hf.
  - rewrite bool_decide_eq_true_2; [done|].
    assert (e ∈ filter (λ e, edge_size e = size) edges) as Hf
      by (rewrite Hused; by left).
    apply list_elem_of_filter in Hf as [<- Hin]. by apply list_elem_of_fmap_2.
Qed.

(** Editing the size or the length of a pipe in the property panel of
    part_002 re-validates to the same verdict for every other pipe; the
    edited pipe keeps its flow and gets the capacity of its new size and
    length. *)
Theorem pipe_edit_changes_one_verdict (cap : string → R → number)
    (nodes : list AppNode) (edges : list AppEdge) (id : string)
    (updates : Part002Shell.EdgeUpdates) :
  unique_edge_ids edges → acyclic edges → keeps_ends updates →
  let edges' := Part002Shell.updateEdge id updates edges in
  ∃ before after,
    validateSystem cap nodes edges (enough_fuel edges) = Some before
    ∧ validateSystem cap nodes edges' (enough_fuel edges') = Some after
    ∧ (∀ k, k ≠ id → after !! k = before !! k)
    ∧ (∀ e, e ∈ edges → edge_id e = id →
         ∃ v, before !! id = Some v
              ∧ after !! id
                = Some (verdict_for cap (Part002Shell.spread_edge e updates) (flow v))).
Proof.
  intros Huniq Hacyc Hkeep edges'.
  pose proof (updateEdge_same_ends id updates edges Hkeep) as Hrel.
  fold edges' in Hrel.
  pose proof (same_ends_ids _ _ Hrel) as Hids.
  assert (enough_fuel edges' = enough_fuel edges) as Hfuel.
  { unfold enough_fuel, edges', Part002Shell.updateEdge. by rewrite length_fmap. }
  assert (∀ k, getFlow nodes edges' (enough_fuel edges') k
               = getFlow nodes edges (enough_fuel edges) k) as Hflow.
  { intros k. rewrite Hfuel. apply getFlow_related; [apply same_demand_refl|done]. }
  assert (unique_edge_ids edges') as Huniq' by (unfold unique_edge_ids; by rewrite Hids).
  destruct (validate_from_total cap nodes edges (enough_fuel edges) ∅ edges)
    as [before Hbefore].
  { intros e _. by apply getFlow_enough_fuel. }
  destruct (validate_from_total cap nodes edges' (enough_fuel edges') ∅ edges')
    as [after Hafter].
  { intros e _. rewrite Hflow. by apply getFlow_enough_fuel. }
  exists before, after. split; [exact Hbefore|]. split; [exact Hafter|]. split.
  - intros k Hk. destruct (decide (k ∈ edge_id <$> edges)) as [Hin|Hout].
    + apply list_elem_of_fmap in Hin as (e & -> & He).
      assert (e ∈ edges') as He'.
      { apply list_elem_of_fmap. exists e. split; [|done].
        by rewrite bool_decide_eq_false_2. }
      destruct (validate_from_entry _ _ _ _ _ _ _ e Huniq Hbefore He)
        as (fl & Hfl & ->).
      destruct (validate_from_entry _ _ _ _ _ _ _ e Huniq' Hafter He')
        as (fl' & Hfl' & ->).
      rewrite Hflow in Hfl'. congruence.
    + rewrite (validate_from_other _ _ _ _ _ _ _ k Hbefore Hout).
      apply (validate_from_other _ _ _ _ _ _ _ k Hafter). by rewrite Hids.
  - intros e He Heid.
    destruct (validate_from_entry _ _ _ _ _ _ _ e Huniq Hbefore He)
      as (fl & Hfl & Hentry).
    assert (Part002Shell.spread_edge e updates ∈ edges') as He'.
    { apply list_elem_of_fmap. exists e. split; [|done].
      by rewrite bool_decide_eq_true_2. }
    destruct (validate_from_entry _ _ _ _ _ _ _ _ Huniq' Hafter He')
      as (fl' & Hfl' & Hentry').
    assert (edge_id (Part002Shell.spread_edge e updates) = id) as Hid'.
    { destruct Hkeep as (Hnone & _). simpl. by rewrite Hnone. }
    rewrite Hid' in Hfl', Hentry'. rewrite Heid in Hfl, Hentry.
    rewrite Hflow in Hfl'. assert (fl' = fl) as -> by congruence.
    exists (verdict_for cap e fl). split; [exact Hentry|exact Hentry'].
Qed.

Lemma pipe_edit_changes_one_verdict_witness :
  ∃ before after,
    validateSystem (App.calculateCapacity Index.PIPE_SPECS) demo_nodes demo_edges
      (enough_fuel demo_edges) = Some before
    ∧ validateSystem (App.calculateCapacity Index.PIPE_SPECS) demo_nodes
        (Part002Shell.updateEdge "e2"
           (Part002Shell.mkEdgeUpdates None None None None (Some 25%R)) demo_edges)
        (enough_fuel demo_edges) = Some after
    ∧ after !! "e1" = before !! "e1".
Proof.
  destruct (pipe_edit_changes_one_verdict (App.calculateCapacity Index.PIPE_SPECS) demo_nodes demo_edges
              "e2" (Part002Shell.mkEdgeUpdates None None None None (Some 25%R))
              demo_edges_unique demo_edges_acyclic)
    as (before & after & Hb & Ha & Hother & _); [done|].
  exists before, after. split; [exact Hb|]. split; [exact Ha|]. by apply Hother.
Defined.

(** Renaming or moving a node through [updateNode] of part_002 leaves
    the whole validation pass as it was: every flow, capacity and
    verdict. *)
Theorem node_edit_keeps_verdicts (cap : string → R → number)
    (nodes : list AppNode) (edges : list AppEdge) (fuel : nat) (id : string)
    (updates : Part002Shell.NodeUpdates) :
  keeps_demand updates →
  validateSystem cap (Part002Shell.updateNode id updates nodes) edges fuel
  = validateSystem cap nodes edges fuel.
Proof.
  intros Hkeep. rewrite !validateSystem_from. apply validate_from_nodes.
  intros k. apply getFlow_related; [by apply updateNode_same_demand|apply same_ends_refl].
Qed.

Lemma node_edit_keeps_verdicts_witness :
  validateSystem (App.calculateCapacity Index.PIPE_SPECS)
    (Part002Shell.updateNode "w"
       (Part002Shell.mkNodeUpdates None None None None (Some "Heater") None) demo_nodes)
    demo_edges 4
  = validateSystem (App.calculateCapacity Index.PIPE_SPECS) demo_nodes demo_edges 4.
Proof. by apply node_edit_keeps_verdicts. Defined.


(** ** Project bookkeeping of part_002 *)

Lemma elem_of_take_filter {A} (P : A → Prop) `{!∀ x, Decision (P x)}
    (n : nat) (l : list A) (x : A) :
  x ∈ take n l → P x → x ∈ take n (filter P l).
Proof.
  revert n. induction l as [|y l IH]; intros n Hx HP.
  - rewrite take_nil in Hx. by apply elem_of_nil in Hx.
  - destruct n as [|n]; [by apply elem_of_nil in Hx|].
    simpl in Hx. rewrite filter_cons. apply elem_of_cons in Hx as [<-|Hx].
    + rewrite decide_True by done. by left.
    + destruct (decide (P y)).
      * simpl. right. by apply IH.
      * apply IH; [|done]. apply elem_of_take in Hx as (i & Hx & Hi).
        apply elem_of_take. exists i. split; [done|lia].
Qed.

(** In part_002 "Save As" makes a copy: the project on screen takes the
    new name and a new identifier, the copy is filed first with the
    current graph and pressure drop, and an entry among the first
    fourteen whose identifier differs from the new one stays on file.  A
    blank name changes nothing. *)
Theorem part002_save_as_makes_a_copy (newId : string) (now : Z)
    (newName : string) (st : Part002Shell.State) :
  let st' := Part002Shell.handleSaveAs newId now newName st in
  (is_blank newName = true → st' = st)
  ∧ (is_blank newName = false →
     Part002Shell.projectName st' = newName
     ∧ Part002Shell.currentProjectId st' = Some newId
     ∧ head (Part002Shell.recentProjects st')
       = Some (Part002Shell.mkRecent newId newName now
                 (length (Part002Shell.nodes st)) (length (Part002Shell.edges st))
                 (Part002Shell.nodes st) (Part002Shell.edges st)
                 (Part002Shell.pressureDrop st))
     ∧ (∀ p, p ∈ take 14 (Part002Shell.recentProjects st) →
             Part002Shell.recent_id p ≠ newId →
             p ∈ tail (Part002Shell.recentProjects st'))
     ∧ Part002Shell.storedRecents st' = Some (Part002Shell.recentProjects st')).
Proof.
  intros st'. subst st'. unfold Part002Shell.handleSaveAs.
  split; [by intros ->|]. intros ->. simpl.
  split; [done|]. split; [done|]. split; [done|]. split; [|done].
  intros p Hp Hne. by apply elem_of_take_filter.
Qed.

(** After "New Project" in part_002 the first save files the empty
    project under a fresh identifier and leaves the entry of the project
    that was open on file. *)
Theorem part002_new_project_save_keeps_open_project (rand : string) (now : Z)
    (st : Part002Shell.State) :
  let st' := Part002Shell.handleSave rand now (Part002Shell.newProject st) in
  Part002Shell.currentProjectId st' = Some rand
  ∧ head (Part002Shell.recentProjects st')
    = Some (Part002Shell.mkRecent rand "New Project" now 0 0 [] []
              (Part002Shell.pressureDrop st))
  ∧ (∀ p, p ∈ take 14 (Part002Shell.recentProjects st) →
          Part002Shell.recent_id p ≠ rand →
          p ∈ tail (Part002Shell.recentProjects st')).
Proof.
  intros st'. subst st'. unfold Part002Shell.handleSave. simpl.
  split; [done|]. split; [done|]. intros p Hp Hne. by apply elem_of_take_filter.
Qed.


Lemma part002_save_as_makes_a_copy_witness :
  demo_recent
  ∈ tail (Part002Shell.recentProjects
            (Part002Shell.handleSaveAs "p2" 9 "Kitchen v2" demo_part002)).
Proof.
  destruct (part002_save_as_makes_a_copy "p2" 9 "Kitchen v2" demo_part002) as [_ H].
  destruct H as (_ & _ & _ & H & _); [reflexivity|].
  apply H; [by left|done].
Defined.

Lemma part002_new_project_save_keeps_open_project_witness :
  demo_recent
  ∈ tail (Part002Shell.recentProjects
            (Part002Shell.handleSave "p2" 9 (Part002Shell.newProject demo_part002))).
Proof.
  destruct (part002_new_project_save_keeps_open_project "p2" 9 demo_part002)
    as (_ & _ & H).
  apply H; [by left|done].
Defined.


(** ** The validator of src/index.tsx *)

Lemma total_le (flows flows' : list Z) :
  Forall2 Z.le flows flows' → total flows ≤ total flows'.
Proof. induction 1; simpl; lia. Qed.

(** On every graph of the data model the validation pass of
    src/index.tsx ends.  When the size of every pipe is a property of
    its table, own or inherited, it returns a mapping that holds for
    each pipe the aggregated flow and, for a size with a row, its
    comparison with the fixed capacity of the row, whatever the length
    of the pipe; a pipe whose size names an inherited property is
    stored as not valid.  When the size of some pipe is no property at
    all, the pass throws and no mapping is stored. *)
Theorem index_validate_outcome (nodes : list AppNode) (edges : list AppEdge) :
  unique_edge_ids edges → acyclic edges →
  ((∀ e, e ∈ edges → property_of Index.PIPE_SPECS (edge_size e) ≠ Undefined) →
   ∃ results,
     Index.validate nodes edges (enough_fuel edges) = Index.Returns results
     ∧ ∀ e, e ∈ edges →
         ∃ flow,
           Index.getFlow nodes edges (enough_fuel edges) (edge_id e) = Some flow
           ∧ results !! edge_id e
             = Some (match property_of Index.PIPE_SPECS (edge_size e) with
                     | Own spec =>
                         Index.mkVerdict (bool_decide (flow ≤ spec_capacity spec)) flow
                     | _ => Index.mkVerdict false flow
                     end))
  ∧ ((∃ e, e ∈ edges ∧ property_of Index.PIPE_SPECS (edge_size e) = Undefined) →
     Index.validate nodes edges (enough_fuel edges) = Index.Throws).
Proof.
  intros Huniq Hacyc.
  assert (∀ e, e ∈ edges →
            is_Some (Index.getFlow nodes edges (enough_fuel edges) (edge_id e))) as Hflows.
  { intros e _. by apply Index_getFlow_enough_fuel. }
  split.
  - intros Hrows.
    destruct (index_validate_from_returns nodes edges (enough_fuel edges) ∅ edges
                Hflows Hrows Huniq) as (results & Hrun & _ & Hentry).
    by exists results.
  - intros (e & He & Hrow).
    exact (index_validate_from_throws nodes edges (enough_fuel edges) ∅ edges e
             Hflows He Hrow).
Qed.

Lemma index_validate_outcome_witness :
  Index.validate demo_nodes
    [mkEdge "e1" "m" "j" "toString" 10; mkEdge "e2" "j" "w" "2" 10]
    (enough_fuel [mkEdge "e1" "m" "j" "toString" 10; mkEdge "e2" "j" "w" "2" 10])
  = Index.Throws.
Proof.
  destruct (index_validate_outcome demo_nodes
              [mkEdge "e1" "m" "j" "toString" 10; mkEdge "e2" "j" "w" "2" 10])
    as [_ H].
  - unfold unique_edge_ids. compute_done.
  - apply (acyclic_of_rank demo_rank). intros e He.
    repeat (apply elem_of_cons in He as [->|He]; [compute; lia|]).
    by apply elem_of_nil in He.
  - apply H. exists (mkEdge "e2" "j" "w" "2" 10). split; [by right; left|reflexivity].
Defined.

(** The aggregator of src/index.tsx counts the demand of every node on
    the way, not only of appliances: when no node has a negative demand,
    it never reports a smaller flow than the aggregator of the App
    builds, and it returns whenever that one does. *)
Theorem index_flow_never_below_app_flow (nodes : list AppNode)
    (edges : list AppEdge) (fuel : nat) (edgeId : string) (v : Z) :
  (∀ n, n ∈ nodes → 0 ≤ node_btu n) →
  getFlow nodes edges fuel edgeId = Some v →
  ∃ v', Index.getFlow nodes edges fuel edgeId = Some v' ∧ v ≤ v'.
Proof.
  intros Hbtu. revert edgeId v. induction fuel as [|fuel IH]; intros edgeId v; [done|].
  rewrite Index_getFlow_unfold, getFlow_unfold.
  destruct (find_edge edges edgeId) as [edge|]; [|intros [= <-]; by exists 0].
  destruct (find_node nodes (edge_to edge)) as [target|] eqn:Hnode;
    [|intros [= <-]; by exists 0].
  apply find_node_Some in Hnode as [Hin _]. specialize (Hbtu target Hin).
  intros (flows & HF & ->)%add_flows_Some.
  assert (∃ flows', Forall2 (λ out x, Index.getFlow nodes edges fuel (edge_id out) = Some x)
                      (outgoing edges (node_id target)) flows'
                    ∧ Forall2 Z.le flows flows') as (flows' & HF' & Hle).
  { clear -HF IH. induction HF as [|out x outs flows Hx _ (flows' & HF' & Hle)].
    - exists []. split; constructor.
    - destruct (IH _ _ Hx) as (x' & Hx' & Hxx'). exists (x' :: flows').
      split; by constructor. }
  exists (node_btu target + total flows'). split.
  - apply add_flows_Some. by exists flows'.
  - apply total_le in Hle. destruct (decide (node_type target = APPLIANCE)); lia.
Qed.

Lemma index_flow_never_below_app_flow_witness :
  ∃ v', Index.getFlow stray_btu_nodes stray_btu_edges 3 "e1" = Some v' ∧ 40000 ≤ v'.
Proof.
  apply (index_flow_never_below_app_flow stray_btu_nodes stray_btu_edges 3 "e1" 40000);
    [|reflexivity].
  intros n Hn. unfold stray_btu_nodes in Hn.
  repeat (apply elem_of_cons in Hn as [->|Hn]; [simpl; lia|]).
  by apply elem_of_nil in Hn.
Defined.


(** ** Deleting from the graph *)

Lemma find_filter_Some {A} (p : A → bool) (P : A → Prop) `{!∀ x, Decision (P x)}
    (l : list A) (x : A) :
  List.find p l = Some x → P x → List.find p (filter P l) = Some x.
Proof.
  induction l as [|y l IH]; [done|]. simpl. rewrite filter_cons.
  destruct (p y) eqn:Hp.
  - intros [= ->] HP. rewrite decide_True by done. simpl. by rewrite Hp.
  - intros Hfind HP. destruct (decide (P y)); [simpl; rewrite Hp|]; by apply IH.
Qed.

Lemma find_filter_None {A} (p : A → bool) (P : A → Prop) `{!∀ x, Decision (P x)}
    (l : list A) :
  List.find p l = None → List.find p (filter P l) = None.
Proof.
  induction l as [|y l IH]; [done|]. simpl. rewrite filter_cons.
  destruct (p y) eqn:Hp; [done|]. intros Hfind.
  destruct (decide (P y)); [simpl; rewrite Hp|]; by apply IH.
Qed.

Lemma filter_swap {A} (P Q : A → Prop) `{!∀ x, Decision (P x)} `{!∀ x, Decision (Q x)}
    (l : list A) :
  filter P (filter Q l) = filter Q (filter P l).
Proof.
  induction l as [|y l IH]; [done|]. rewrite !filter_cons.
  destruct (decide (Q y)), (decide (P y)); rewrite ?filter_cons;
    rewrite ?decide_True by done; rewrite ?decide_False by done; by rewrite IH.
Qed.

Lemma getFlow_nonneg nodes edges fuel (edgeId : string) (v : Z) :
  (∀ n, n ∈ nodes → node_type n = APPLIANCE → 0 ≤ node_btu n) →
  getFlow nodes edges fuel edgeId = Some v → 0 ≤ v.
Proof.
  intros Hbtu. revert edgeId v. induction fuel as [|fuel IH]; intros edgeId v; [done|].
  rewrite getFlow_unfold.
  destruct (find_edge edges edgeId) as [edge|]; [|intros [= <-]; lia].
  destruct (find_node nodes (edge_to edge)) as [target|] eqn:Hnode; [|intros [= <-]; lia].
  apply find_node_Some in Hnode as [Hin _].
  intros (flows & HF & ->)%add_flows_Some.
  assert (0 ≤ total flows) as Htot.
  { apply total_nonneg. clear -HF IH.
    induction HF as [|out x outs flows Hx _ IHF]; constructor; [by eapply IH|done]. }
  destruct (decide (node_type target = APPLIANCE)) as [Hty|]; [|lia].
  specialize (Hbtu target Hin Hty). lia.
Qed.

(** Removing pipes, and nodes that no remaining pipe ends at, lowers
    flows or leaves them. *)
Lemma getFlow_after_removal (P : AppEdge → Prop) `{!∀ e, Decision (P e)}
    (nodes nodes' : list AppNode) (edges : list AppEdge) :
  unique_edge_ids edges →
  (∀ n, n ∈ nodes → node_type n = APPLIANCE → 0 ≤ node_btu n) →
  (∀ e, e ∈ edges → P e → find_node nodes' (edge_to e) = find_node nodes (edge_to e)) →
  ∀ fuel (k : string) v,
    getFlow nodes edges fuel k = Some v →
    ∃ v', getFlow nodes' (filter P edges) fuel k = Some v' ∧ 0 ≤ v' ≤ v.
Proof.
  intros Huniq Hbtu Hnodes. induction fuel as [|fuel IH]; intros k v Hrun; [done|].
  pose proof (getFlow_nonneg _ _ _ _ _ Hbtu Hrun) as Hv.
  rewrite getFlow_unfold in Hrun. rewrite getFlow_unfold.
  destruct (find_edge edges k) as [e|] eqn:Hfe.
  2: { unfold find_edge in *. rewrite (find_filter_None _ _ _ Hfe).
       injection Hrun as <-. by exists 0. }
  destruct (decide (P e)) as [HP|HnP].
  2: { assert (find_edge (filter P edges) k = None) as ->.
       { destruct (find_edge (filter P edges) k) as [e'|] eqn:Hfe'; [|done].
         exfalso. apply find_edge_Some in Hfe' as [Hin' Hid'].
         apply list_elem_of_filter in Hin' as [HP' Hin'].
         apply find_edge_Some in Hfe as [Hin Hid].
         assert (e = e') as ->; [|done].
         apply (edge_id_injective edges); [done|done|done|congruence]. }
       exists 0. split; [done|lia]. }
  assert (find_edge (filter P edges) k = Some e) as ->.
  { unfold find_edge in *. by apply find_filter_Some. }
  apply find_edge_Some in Hfe as [Hin Hid]. rewrite (Hnodes e Hin HP).
  destruct (find_node nodes (edge_to e)) as [n|] eqn:Hn.
  2: { injection Hrun as <-. by exists 0. }
  apply find_node_Some in Hn as [Hnin _].
  assert (outgoing (filter P edges) (node_id n) = filter P (outgoing edges (node_id n)))
    as -> by apply filter_swap.
  apply add_flows_Some in Hrun as (flows & HF & ->).
  assert (∃ flows',
            Forall2 (λ out x, getFlow nodes' (filter P edges) fuel (edge_id out) = Some x)
              (filter P (outgoing edges (node_id n))) flows'
            ∧ 0 ≤ total flows' ≤ total flows) as (flows' & HF' & Hle).
  { clear -HF IH. induction HF as [|out x outs flows Hx _ (flows' & HF' & Hle)].
    - exists []. split; [constructor|simpl; lia].
    - destruct (IH _ _ Hx) as (x' & Hx' & Hxx'). rewrite filter_cons.
      destruct (decide (P out)).
      + exists (x' :: flows'). split; [by constructor|simpl; lia].
      + exists flows'. split; [done|simpl; lia]. }
  exists ((if decide (node_type n = APPLIANCE) then 0 + node_btu n else 0) + total flows').
  split; [apply add_flows_Some; by exists flows'|].
  destruct (decide (node_type n = APPLIANCE)) as [Hty|]; [|lia].
  specialize (Hbtu n Hnin Hty). lia.
Qed.

(** Deleting a node or a pipe never raises the flow of any pipe: when no
    appliance has a negative demand, every flow the validator computed
    before is computed afterwards too, and is between 0 and its old
    value. *)
Theorem deleting_never_raises_a_flow (st : App.State) (id : string)
    (fuel : nat) (edgeId : string) (v : Z) :
  unique_edge_ids (App.edges st) →
  (∀ n, n ∈ App.nodes st → node_type n = APPLIANCE → 0 ≤ node_btu n) →
  getFlow (App.nodes st) (App.edges st) fuel edgeId = Some v →
  (∃ v', getFlow (App.nodes (App.onDeleteNode id st)) (App.edges (App.onDeleteNode id st))
           fuel edgeId = Some v' ∧ 0 ≤ v' ≤ v)
  ∧ (∃ v', getFlow (App.nodes (App.onDeleteEdge id st)) (App.edges (App.onDeleteEdge id st))
             fuel edgeId = Some v' ∧ 0 ≤ v' ≤ v).
Proof.
  intros Huniq Hbtu Hrun. destruct st as [nodes edges tool size sel mob edit].
  simpl in *. split.
  - apply (getFlow_after_removal _ nodes); [done|done| |done].
    intros e _ [_ Hto]. unfold find_node.
    destruct (List.find (λ n, bool_decide (node_id n = edge_to e)) nodes) as [n|] eqn:Hn.
    + apply find_filter_Some; [done|]. apply find_some in Hn as [_ Hid].
      apply bool_decide_eq_true in Hid. by rewrite Hid.
    + by apply find_filter_None.
  - by apply (getFlow_after_removal _ nodes).
Qed.

Lemma deleting_never_raises_a_flow_witness :
  ∃ v', getFlow (App.nodes (App.onDeleteNode "c" demo_state))
          (App.edges (App.onDeleteNode "c" demo_state)) 3 "e1" = Some v'
        ∧ 0 ≤ v' ≤ 105000.
Proof.
  destruct (deleting_never_raises_a_flow demo_state "c" 3 "e1" 105000) as [H _];
    [exact demo_edges_unique| |reflexivity|exact H].
  intros n Hn _. simpl in Hn. unfold demo_nodes in Hn.
  repeat (apply elem_of_cons in Hn as [->|Hn]; [simpl; lia|]).
  by apply elem_of_nil in Hn.
Defined.


(** ** The report renderer *)

Lemma string_app_empty (s : string) : String.append s EmptyString = s.
Proof.
  induction s as [|c s IH]; [done|].
  change (String c (String.append s EmptyString) = String c s). by rewrite IH.
Qed.

Lemma join_split_before (titles : list string) (s : string) :
  join (split_before titles s) = s.
Proof.
  induction s as [|c s IH]; [done|]. simpl.
  destruct (existsb (λ t, String.prefix t s) titles).
  - simpl. fold (join (split_before titles s)). by rewrite IH.
  - destruct (split_before titles s) as [|piece pieces]; simpl in *; by rewrite <- IH.
Qed.

Lemma is_blank_app (a b : string) :
  is_blank (String.append a b) = is_blank a && is_blank b.
Proof.
  induction a as [|c a IH]; [done|].
  change (is_space c && is_blank (String.append a b)
          = is_space c && is_blank a && is_blank b).
  rewrite IH. by destruct (is_space c).
Qed.

Lemma is_blank_join (pieces : list string) :
  is_blank (join pieces) = forallb is_blank pieces.
Proof.
  induction pieces as [|p l IH]; [done|]. simpl. by rewrite is_blank_app, IH.
Qed.

Lemma filter_nonblank_nil (pieces : list string) :
  List.filter (λ s, negb (is_blank s)) pieces = [] ↔ forallb is_blank pieces = true.
Proof.
  induction pieces as [|p l IH]; [done|]. simpl.
  destruct (is_blank p); simpl; [exact IH|]. split; discriminate.
Qed.

(** The sections of the report modal: the split loses no character of
    the report, every section shown has some text, and no section at
    all is shown exactly when the report is nothing but white space. *)
Theorem report_sections_cover_report (aiReport : string) :
  join (split_before section_titles aiReport) = aiReport
  ∧ Forall (λ s, is_blank s = false) (report_sections aiReport)
  ∧ (report_sections aiReport = [] ↔ is_blank aiReport = true).
Proof.
  split; [apply join_split_before|]. split.
  - apply Forall_forall. intros s Hs. unfold report_sections in Hs.
    apply list_elem_of_In, filter_In in Hs as [_ Hs]. by apply negb_true_iff in Hs.
  - unfold report_sections. rewrite filter_nonblank_nil, <- is_blank_join.
    by rewrite join_split_before.
Qed.

(** ** Loading a design while a source is locked *)

Lemma run_canvas_events (w : AppShell.World) (evs : list App.Event) :
  AppShell.run w (AppShell.CanvasEvent <$> evs)
  = AppShell.mkWorld
      (AppShell.setShell
         (App.app (App.run (App.mkWorld (AppShell.shell (AppShell.app w))
                                        (AppShell.canvas w)) evs))
         (AppShell.app w))
      (App.canvas (App.run (App.mkWorld (AppShell.shell (AppShell.app w))
                                        (AppShell.canvas w)) evs)).
Proof.
  revert w. induction evs as [|ev evs IH]; intros w.
  - by destruct w as [[] ?].
  - rewrite fmap_cons. unfold AppShell.run. simpl foldl.
    fold (AppShell.run (AppShell.step w (AppShell.CanvasEvent ev))
                       (AppShell.CanvasEvent <$> evs)).
    rewrite IH. simpl.
    by destruct (App.step (App.mkWorld (AppShell.shell (AppShell.app w))
                                       (AppShell.canvas w)) ev).
Qed.

(** The Load button of the designer replaces the graph and leaves the
    Canvas as it is: a source that was locked in PIPE mode stays locked,
    and when the loaded design has no node of that identifier, the next
    tap on one of its nodes adds a pipe that starts at no node. *)
Theorem load_keeps_the_locked_source (w : AppShell.World) (d : AppShell.Design)
    (c : Point) (now : Z) (rand A B : string) :
  App.selectedTool (AppShell.shell (AppShell.app w)) = pipe →
  Canvas.tapPipingSource (AppShell.canvas w) = Some A →
  A ≠ EmptyString → A ≠ B →
  B ∈ node_id <$> default [] (AppShell.design_nodes d) →
  A ∉ node_id <$> default [] (AppShell.design_nodes d) →
  let loaded :=
    AppShell.mkWorld (AppShell.handleImport (Some d) (AppShell.app w))
                     (AppShell.canvas w) in
  let w' := AppShell.run loaded (AppShell.CanvasEvent <$> App.tapNode c now rand B) in
  App.nodes (AppShell.shell (AppShell.app w')) = default [] (AppShell.design_nodes d)
  ∧ App.edges (AppShell.shell (AppShell.app w'))
    = default [] (AppShell.design_edges d)
      ++ [mkEdge rand A B (App.selectedPipeSize (AppShell.shell (AppShell.app w))) 10]
  ∧ ¬ no_dangling (App.nodes (AppShell.shell (AppShell.app w')))
                  (App.edges (AppShell.shell (AppShell.app w'))).
Proof.
  intros Htool Hlock HA Hdiff HB Hgone loaded w'. subst w' loaded.
  rewrite run_canvas_events.
  rewrite (tap_completes_connection _ c now rand A B); [|by simpl..].
  destruct w as [[v cid pn [ns es tool size sel mob sme] f1 f2 rp sr] cv]. simpl in *.
  split; [done|]. split; [done|]. intros Hnd.
  destruct (Hnd (mkEdge rand A B size 10)) as [Hfrom _]; [|done].
  apply elem_of_app. right. by left.
Qed.

Lemma load_keeps_the_locked_source_witness :
  ¬ no_dangling
      [mkNode "k" JUNCTION 100 100 "T-Junction" 0]
      [mkEdge "x1" "w" "k" (PipeSize_value HALF) 10].
Proof.
  destruct (load_keeps_the_locked_source
              (AppShell.mkWorld
                 (AppShell.mkState AppShell.designer None "New Project"
                    (App.setSelectedTool pipe demo_state) false false [] None)
                 (Canvas.mkState None None (mkPoint 0 0) (mkPoint 0 0) false (Some "w")
                    (Canvas.interactionState Canvas.initial)))
              (AppShell.mkDesign (Some [mkNode "k" JUNCTION 100 100 "T-Junction" 0])
                                 (Some []) None)
              (mkPoint 100 100) 1000 "x1" "w" "k") as (_ & _ & H);
    [done|done|done|done|by left|compute_done|exact H].
Defined.
